(** * pdf2excel: the table-reconstruction core of [pdf2excel.py]

    A shallow embedding of [group_text_into_rows], [sort_row_into_columns]
    and [organize_into_table], with the Python builtins they call
    ([sorted], [abs], [-], [<=], dict subscription, [str.strip]).

    - a text block is a Python dict with string keys: [gmap string value];
    - a Python exception is an [Err] result; every function that can raise
      returns [result];
    - the [for] loops that mutate local variables are monadic left folds
      over the tuple of those variables. *)

From Stdlib Require Import ZArith NArith List Lia.
From stdpp Require Import base option list strings gmap sorting.

(** ** Python values and exceptions *)

(** A [str] is its sequence of Unicode code points. *)
Abbreviation pystr := (list N).

(** The literal of a [str] from an ASCII Rocq string. *)
Fixpoint str (s : string) : pystr :=
  match s with
  | EmptyString => []
  | String c s' => Ascii.N_of_ascii c :: str s'
  end.

(** The values a block's fields hold here: an [int], a [str] or [None]. *)
Inductive value : Type :=
  | VInt (z : Z)
  | VStr (s : pystr)
  | VNone.

Inductive exn : Type :=
  | KeyError (k : string)
  | TypeError
  | AttributeError
  | IndexError.

Inductive result (A : Type) : Type :=
  | Ok (a : A)
  | Err (e : exn).
Arguments Ok {A} a.
Arguments Err {A} e.

Definition bind {A B} (r : result A) (k : A → result B) : result B :=
  match r with
  | Ok a => k a
  | Err e => Err e
  end.

Notation "'do' x <- e ; k" := (bind e (fun x => k))
  (at level 10, x name, e at level 100, k at level 200).
Notation "'do' ' p <- e ; k" := (bind e (fun x => match x with p => k end))
  (at level 10, p pattern, e at level 100, k at level 200).

Fixpoint mapM {A B} (f : A → result B) (xs : list A) : result (list B) :=
  match xs with
  | [] => Ok []
  | x :: xs' => do y <- f x; do ys <- mapM f xs'; Ok (y :: ys)
  end.

(** A [for] loop whose body updates the loop state [s] and may raise. *)
Fixpoint foldM {S A} (step : S → A → result S) (s : S) (xs : list A) : result S :=
  match xs with
  | [] => Ok s
  | x :: xs' => do s' <- step s x; foldM step s' xs'
  end.

(** ** Builtins *)

(** [str.isspace] on one code point: the code points whose Unicode category
    is Zs or whose bidirectional class is WS, B or S. *)
Definition isspace (c : N) : bool :=
  ((9 <=? c) && (c <=? 13) || (28 <=? c) && (c <=? 32)
   || (c =? 133) || (c =? 160) || (c =? 5760)
   || (8192 <=? c) && (c <=? 8202)
   || (c =? 8232) || (c =? 8233) || (c =? 8239) || (c =? 8287)
   || (c =? 12288))%N.

Fixpoint lstrip (s : pystr) : pystr :=
  match s with
  | [] => []
  | c :: s' => if isspace c then lstrip s' else s
  end.

Definition rstrip (s : pystr) : pystr := reverse (lstrip (reverse s)).

(** [s.strip()] *)
Definition strip (s : pystr) : pystr := lstrip (rstrip s).

(** [s < t] on [str]: lexicographic on code points. *)
Fixpoint str_lt (s t : pystr) : bool :=
  match s, t with
  | _, [] => false
  | [], _ :: _ => true
  | c :: s', d :: t' => (c <? d)%N || (c =? d)%N && str_lt s' t'
  end.

(** [s <= t] on [str]. *)
Definition str_le (s t : pystr) : bool := negb (str_lt t s).

(** [d[k]] *)
Definition getitem (d : gmap string value) (k : string) : result value :=
  match d !! k with
  | Some v => Ok v
  | None => Err (KeyError k)
  end.

(** [a < b] *)
Definition py_lt (a b : value) : result bool :=
  match a, b with
  | VInt x, VInt y => Ok (x <? y)%Z
  | VStr s, VStr t => Ok (str_lt s t)
  | _, _ => Err TypeError
  end.

(** [a <= b] *)
Definition py_le (a b : value) : result bool :=
  match a, b with
  | VInt x, VInt y => Ok (x <=? y)%Z
  | VStr s, VStr t => Ok (str_le s t)
  | _, _ => Err TypeError
  end.

(** [a - b] *)
Definition py_sub (a b : value) : result value :=
  match a, b with
  | VInt x, VInt y => Ok (VInt (x - y))
  | _, _ => Err TypeError
  end.

(** [abs(a)] *)
Definition py_abs (a : value) : result value :=
  match a with
  | VInt x => Ok (VInt (Z.abs x))
  | _ => Err TypeError
  end.

(** [v.strip()]: only a [str] has the method. *)
Definition py_strip (v : value) : result pystr :=
  match v with
  | VStr s => Ok (strip s)
  | _ => Err AttributeError
  end.

(** [sorted(xs, key=key)].  The keys are all computed first, in list order,
    so the first key that raises ends the call; then the (key, item) pairs
    are sorted with [<] on the keys alone.  The sort is stable: an item goes
    in front of the first item whose key is not smaller than its own.  On
    keys that are all [int] or all [str] no comparison raises and the stable
    order is unique; on two or more keys of which one is [None] or which mix
    [int] and [str], some comparison raises [TypeError], here as in
    CPython; a list of fewer than two items is never compared. *)
Fixpoint insert_keyed {A} (kx : value * A) (l : list (value * A))
    : result (list (value * A)) :=
  match l with
  | [] => Ok [kx]
  | ky :: l' =>
      do c <- py_lt (fst ky) (fst kx);
      if c then do r <- insert_keyed kx l'; Ok (ky :: r)
      else Ok (kx :: l)
  end.

Fixpoint sort_keyed {A} (l : list (value * A)) : result (list (value * A)) :=
  match l with
  | [] => Ok []
  | kx :: l' => do s <- sort_keyed l'; insert_keyed kx s
  end.

Definition sorted {A} (key : A → result value) (xs : list A) : result (list A) :=
  do keyed <- mapM (fun x => do k <- key x; Ok (k, x)) xs;
  do s <- sort_keyed keyed;
  Ok (map snd s).

(** ** The core *)

Abbreviation block := (gmap string value).

(** The loop state of [group_text_into_rows]:
    [(rows, current_row, current_row_y)]. *)
Abbreviation group_state := (list (list block) * list block * value)%type.

(** One iteration of [for block in sorted_blocks[1:]]. *)
Definition group_step (st : group_state) (blk : block) : result group_state :=
  let '(rows, current_row, current_row_y) := st in
  do t <- getitem blk "top";
  do d <- py_sub t current_row_y;
  do y_difference <- py_abs d;
  do c <- py_le y_difference (VInt 5);
  if c then Ok (rows, current_row ++ [blk], current_row_y)
  else
    do t' <- getitem blk "top";
    Ok (rows ++ [current_row], [blk], t').

Definition group_text_into_rows (text_blocks : list block)
    : result (list (list block)) :=
  match text_blocks with
  | [] => Ok []
  | _ :: _ =>
      do sorted_blocks <- sorted (fun x => getitem x "top") text_blocks;
      match sorted_blocks with
      | [] => Err IndexError
      | first :: rest =>
          do current_row_y <- getitem first "top";
          do '(rows, current_row, _) <-
            foldM group_step ([], [first], current_row_y) rest;
          Ok (rows ++ [current_row])
      end
  end.

Definition sort_row_into_columns (row_blocks : list block) : result (list block) :=
  sorted (fun x => getitem x "left") row_blocks.

(** One iteration of [for row in rows] in [organize_into_table]. *)
Definition organize_step (organized_table : list (list pystr)) (row : list block)
    : result (list (list pystr)) :=
  do sorted_row <- sort_row_into_columns row;
  do row_texts <- mapM (fun blk => do t <- getitem blk "text"; py_strip t) sorted_row;
  Ok (organized_table ++ [row_texts]).

Definition organize_into_table (text_blocks : list block)
    : result (list (list pystr)) :=
  do rows <- group_text_into_rows text_blocks;
  foldM organize_step [] rows.

(** A block as [analyze_table_structure] builds it. *)
Definition mk_block (text : pystr) (left right top bottom : Z) : block :=
  {[ "text" := VStr text; "left" := VInt left; "right" := VInt right;
     "top" := VInt top; "bottom" := VInt bottom ]}.

(** ** Reading a well-formed block *)

(** The integer under key [k], for a block that has one there. *)
Definition int_of (k : string) (b : block) : Z :=
  match b !! k with
  | Some (VInt z) => z
  | _ => 0%Z
  end.

Definition top_of : block → Z := int_of "top".
Definition left_of : block → Z := int_of "left".

(** The trimmed text of a block whose [text] is a [str]. *)
Definition cell_of (b : block) : pystr :=
  match b !! "text" with
  | Some (VStr s) => strip s
  | _ => []
  end.

(** [b] has an [int] under [k]; [b] has a [str] under [k]. *)
Definition has_int (k : string) (b : block) : bool :=
  match b !! k with
  | Some (VInt _) => true
  | _ => false
  end.

Definition has_str (k : string) (b : block) : bool :=
  match b !! k with
  | Some (VStr _) => true
  | _ => false
  end.

(** What the core reads of a fragment: integer [top] and [left], and a
    [str] under [text]. *)
Definition readable (b : block) : bool :=
  has_int "top" b && has_int "left" b && has_str "text" b.

(** A fragment of the data model: also integer [right] and [bottom]. *)
Definition well_formed (b : block) : bool :=
  readable b && has_int "right" b && has_int "bottom" b.

(** A malformed fragment: one of the four coordinates is missing or is not
    an integer. *)
Definition malformed (b : block) : bool :=
  negb (has_int "left" b && has_int "right" b
        && has_int "top" b && has_int "bottom" b).

(** ** The stable sort on integer keys *)

Section Isort.
Context {A : Type} (k : A → Z).

(** [insert_keyed] and [sort_keyed] when every key is an [int]. *)
Fixpoint insert_by (x : A) (l : list A) : list A :=
  match l with
  | [] => [x]
  | y :: l' => if (k y <? k x)%Z then y :: insert_by x l' else x :: l
  end.

Fixpoint isort (l : list A) : list A :=
  match l with
  | [] => []
  | x :: l' => insert_by x (isort l')
  end.

Definition key_le (x y : A) : Prop := (k x ≤ k y)%Z.

(** An item paired with its integer key, as [sorted] pairs them. *)
Definition keyed (x : A) : value * A := (VInt (k x), x).
End Isort.

(** ** The Row Grouper in the words of the specification

    [spec_rows anchor current rest]: for each fragment of [rest] in order,
    append it to the current row when its [top] is within 5 of the anchor;
    otherwise close the current row, start a new one with the fragment and
    take the fragment's [top] as the new anchor; at the end close the
    current row. *)
Fixpoint spec_rows (anchor : Z) (current : list block) (rest : list block)
    : list (list block) :=
  match rest with
  | [] => [current]
  | f :: rest' =>
      if (Z.abs (top_of f - anchor) <=? 5)%Z
      then spec_rows anchor (current ++ [f]) rest'
      else current :: spec_rows (top_of f) [f] rest'
  end.

(** The rows of a list that is already in ascending order of [top]. *)
Definition rows_of (sorted_blocks : list block) : list (list block) :=
  match sorted_blocks with
  | [] => []
  | first :: rest => spec_rows (top_of first) [first] rest
  end.

(** The anchor of a row: the [top] of its first fragment. *)
Definition anchor_of (row : list block) : Z :=
  match row with
  | [] => 0%Z
  | first :: _ => top_of first
  end.

(** [f] is within 5 of the anchor [a]. *)
Definition within5 (a : Z) (f : block) : Prop := (Z.abs (top_of f - a) ≤ 5)%Z.

(** ** Orders and notions used in the statements *)

(** The lexicographic order of the keys [(k1, k2)]. *)
Definition lex_le {A} (k1 k2 : A → Z) (x y : A) : Prop :=
  (k1 x < k1 y ∨ (k1 x = k1 y ∧ k2 x ≤ k2 y))%Z.

(** Every block of [r2] lies more than 5 below the anchor of [r1]. *)
Definition row_before (r1 r2 : list block) : Prop :=
  ∀ g, g ∈ r2 → (anchor_of r1 + 5 < top_of g)%Z.

Abbreviation by_top := (key_le top_of).

(** [f] lies at most 5 below [a]. *)
Definition low (a : Z) (f : block) : Prop := (top_of f ≤ a + 5)%Z.

#[local] Instance low_dec a f : Decision (low a f).
Proof. unfold low. apply _. Defined.

(** The record of a row: its cells in column order. *)
Definition record_of (row : list block) : list pystr :=
  map cell_of (isort left_of row).

(** What [organize_into_table] needs of a block after the rows are formed:
    some [left], and a [str] under [text]. *)
Definition cells_read (b : block) : Prop :=
  is_Some (b !! "left") ∧ ∃ s, b !! "text" = Some (VStr s).

(** [t] is [s] with the whitespace at both ends removed. *)
Definition trimmed_of (s t : pystr) : Prop :=
  ∃ pre suf,
    s = pre ++ t ++ suf
    ∧ Forall (fun c => isspace c) pre ∧ Forall (fun c => isspace c) suf
    ∧ (∀ c, head t = Some c → ¬ isspace c)
    ∧ (∀ c, last t = Some c → ¬ isspace c).

(** ** Sample fragments *)

(** A fragment ten pixels wide and high. *)
Definition frag (text : string) (left top : Z) : block :=
  mk_block (str text) left (left + 10) top (top + 10).

(** Tops 0, 3, 4 and 9: the last is within 5 of 4 but not of the anchor 0. *)
Definition drift_blocks : list block :=
  [frag "a" 0 0; frag "b" 20 3; frag "c" 40 4; frag "d" 60 9].

(** Closes [Forall p l] for a boolean [p] that evaluates to [true] on
    every item of the explicit list [l]. *)
Ltac forall_true :=
  repeat first [ apply Forall_nil_2 | apply Forall_cons_2; [vm_compute; exact I|] ].

(** A row given out of column order, with two pairs of equal [left]. *)
Definition ragged_row : list block :=
  [frag "x" 50 0; frag "y" 0 2; frag "z" 50 1; frag "w" 0 0].

(** [g] lies more than 5 below [f]; [f] and [g] lie more than 5 apart. *)
Definition spaced (f g : block) : Prop := (top_of f + 5 < top_of g)%Z.
Definition apart (f g : block) : Prop := (5 < Z.abs (top_of f - top_of g))%Z.

(** Three fragments 6 apart, not in ascending order. *)
Definition spaced_blocks : list block :=
  [frag "i" 0 6; frag "j" 9 12; frag "h" 5 0].

(** Two fragments at the same [top] and [left] with different texts. *)
Definition twin_a : block := frag "A" 0 0.
Definition twin_b : block := frag "B" 0 0.

(** A fragment with no bottom edge. *)
Definition no_bottom : block :=
  {[ "text" := VStr (str "A"); "left" := VInt 0; "right" := VInt 10;
     "top" := VInt 0 ]}.

(** A fragment whose [top] is the string ["12"]. *)
Definition str_top : block :=
  {[ "text" := VStr (str "A"); "left" := VInt 0; "right" := VInt 10;
     "top" := VStr (str "12"); "bottom" := VInt 10 ]}.

(** Two fragments of one row whose [left] are the strings ["9"] and ["10"]. *)
Definition str_left (text left : string) : block :=
  {[ "text" := VStr (str text); "left" := VStr (str left);
     "right" := VInt 10; "top" := VInt 0; "bottom" := VInt 10 ]}.

(** A fragment with no [top], and one with no [left]. *)
Definition no_top : block :=
  {[ "text" := VStr (str "A"); "left" := VInt 0; "right" := VInt 10;
     "bottom" := VInt 10 ]}.
Definition no_left : block :=
  {[ "text" := VStr (str "A"); "right" := VInt 10; "top" := VInt 0;
     "bottom" := VInt 10 ]}.

(** ** The extraction step, the pipeline of [main] and the writer

    [analyze_table_structure] can raise [ValueError] ([min] of an empty
    sequence), which the core never does: the exceptions of a run of the
    pipeline are that one and the exceptions of the core. *)

Inductive run_exn : Type :=
  | ValueError
  | CoreError (e : exn).

Inductive run (A : Type) : Type :=
  | Done (a : A)
  | Raise (e : run_exn).
Arguments Done {A} a.
Arguments Raise {A} e.

Definition run_bind {A B} (r : run A) (k : A → run B) : run B :=
  match r with
  | Done a => k a
  | Raise e => Raise e
  end.

Notation "'perform' x <- e ; k" := (run_bind e (fun x => k))
  (at level 10, x name, e at level 100, k at level 200).

(** A call into the core from the pipeline. *)
Definition lift {A} (r : result A) : run A :=
  match r with
  | Ok a => Done a
  | Err e => Raise (CoreError e)
  end.

(** A [for] loop of the pipeline. *)
Fixpoint foldR {S A} (step : S → A → run S) (s : S) (xs : list A) : run S :=
  match xs with
  | [] => Done s
  | x :: xs' => perform s' <- step s x; foldR step s' xs'
  end.

(** [min(l)] and [max(l)] on a list of [int]. *)
Definition py_min (l : list Z) : run Z :=
  match l with
  | [] => Raise ValueError
  | z :: l' => Done (fold_left Z.min l' z)
  end.

Definition py_max (l : list Z) : run Z :=
  match l with
  | [] => Raise ValueError
  | z :: l' => Done (fold_left Z.max l' z)
  end.

(** The truth value of a [str]: false for the empty string only. *)
Definition truthy (s : pystr) : bool :=
  match s with
  | [] => false
  | _ :: _ => true
  end.

(** What the code reads of an OCR response: each annotation has a
    [description] and the [vertices] of its [bounding_poly]. *)
Record vertex : Type := Vertex { x : Z; y : Z }.
Record bounding_poly_t : Type := BoundingPoly { vertices : list vertex }.
Record annotation : Type :=
  Annotation { description : pystr; bounding_poly : bounding_poly_t }.
Record response : Type := Response { text_annotations : list annotation }.

(** One iteration of [for annotation in text_data.text_annotations]. *)
Definition analyze_step (extracted_blocks : list block) (a : annotation)
    : run (list block) :=
  if truthy (description a) then
    let x_coords := map x (vertices (bounding_poly a)) in
    let y_coords := map y (vertices (bounding_poly a)) in
    perform left <- py_min x_coords;
    perform right <- py_max x_coords;
    perform top <- py_min y_coords;
    perform bottom <- py_max y_coords;
    let text_block : block :=
      {[ "text" := VStr (description a); "left" := VInt left;
         "right" := VInt right; "top" := VInt top; "bottom" := VInt bottom ]} in
    Done (extracted_blocks ++ [text_block])
  else Done extracted_blocks.

Definition analyze_table_structure (text_data : response) : run (list block) :=
  foldR analyze_step [] (text_annotations text_data).

(** [main], from the OCR responses of the pages to the organized table:
    the loop that extends [table_data] page by page. *)
Definition main_table_data (all_text_data : list response) : run (list block) :=
  foldR (fun table_data page_data =>
           perform structured_text <- analyze_table_structure page_data;
           Done (table_data ++ structured_text))
        [] all_text_data.

Definition main_organized_table (all_text_data : list response)
    : run (list (list pystr)) :=
  perform table_data <- main_table_data all_text_data;
  lift (organize_into_table table_data).

(** What [write_table_to_excel] does to the worksheet and the workbook, in
    order: [ws.cell(row, column).value = value],
    [ws.cell(row, column).font = Font(bold=True)], [wb.save(filename)]. *)
Inductive ws_op : Type :=
  | SetValue (row column : nat) (value : pystr)
  | SetFontBold (row column : nat)
  | Save (filename : pystr).

(** [for col_num, headers in enumerate(headers, 1)], from [col_num] on. *)
Fixpoint write_headers (col_num : nat) (headers : list pystr) : list ws_op :=
  match headers with
  | [] => []
  | h :: hs =>
      SetValue 1 col_num h :: SetFontBold 1 col_num :: write_headers (S col_num) hs
  end.

(** [for col_num, cell_data in enumerate(row_data, 1)], from [col_num] on. *)
Fixpoint write_row (row_num col_num : nat) (row_data : list pystr) : list ws_op :=
  match row_data with
  | [] => []
  | cell_data :: rest =>
      SetValue row_num col_num cell_data :: write_row row_num (S col_num) rest
  end.

(** [for row_num, row_data in enumerate(table_data[1:], 2)], from
    [row_num] on. *)
Fixpoint write_rows (row_num : nat) (rows : list (list pystr)) : list ws_op :=
  match rows with
  | [] => []
  | row_data :: rest => write_row row_num 1 row_data ++ write_rows (S row_num) rest
  end.

Definition write_table_to_excel (table_data : list (list pystr))
    (output_filename : pystr) : list ws_op :=
  match table_data with
  | [] => []
  | headers :: data => write_headers 1 headers ++ write_rows 2 data
  end ++ [Save output_filename].


(** An annotation the extraction keeps, and one it raises on. *)
Definition kept (a : annotation) : bool := truthy (description a).
Definition boxless (a : annotation) : bool :=
  truthy (description a)
  && match vertices (bounding_poly a) with [] => true | _ => false end.

(** Sample annotations: a word with its four corners, a blank one, one of
    spaces only, and one without corners. *)
Definition word (text : string) (left top : Z) : annotation :=
  Annotation (str text)
    (BoundingPoly [Vertex left top; Vertex (left + 10) top;
                   Vertex (left + 10) (top + 10); Vertex left (top + 10)]).
Definition blank : annotation := Annotation [] (BoundingPoly []).
Definition spaces : annotation :=
  Annotation (str "  ") (BoundingPoly [Vertex 3 3; Vertex 4 4]).
Definition cornerless : annotation := Annotation (str "Q") (BoundingPoly []).

(** ** The monad *)

Lemma bind_Ok {A B} (r : result A) (k : A → result B) b :
  bind r k = Ok b → ∃ a, r = Ok a ∧ k a = Ok b.
Proof. destruct r; simpl; [eauto | discriminate]. Qed.

Lemma mapM_Ok_map {A B} (f : A → result B) (g : A → B) xs :
  Forall (fun x => f x = Ok (g x)) xs → mapM f xs = Ok (map g xs).
Proof.
  induction 1 as [|x xs Hx _ IH]; simpl; [done|].
  by rewrite Hx, IH.
Qed.

Lemma mapM_length {A B} (f : A → result B) xs ys :
  mapM f xs = Ok ys → length ys = length xs.
Proof.
  revert ys; induction xs as [|x xs IH]; simpl; intros ys H.
  - by inversion H.
  - apply bind_Ok in H as (y & _ & H). apply bind_Ok in H as (ys' & H' & H).
    inversion H; subst; simpl. f_equal; eauto.
Qed.

(** ** [sorted] on integer keys is the stable insertion sort *)

Section SortedInt.
Context {A : Type} (key : A → result value) (k : A → Z).

Lemma insert_keyed_int x l :
  insert_keyed (keyed k x) (map (keyed k) l)
  = Ok (map (keyed k) (insert_by k x l)).
Proof.
  induction l as [|y l IH]; simpl; [done|].
  destruct (k y <? k x)%Z; simpl; [|done].
  by rewrite IH.
Qed.

Lemma sort_keyed_int l :
  sort_keyed (map (keyed k) l) = Ok (map (keyed k) (isort k l)).
Proof.
  induction l as [|x l IH]; simpl; [done|].
  rewrite IH; simpl. apply insert_keyed_int.
Qed.

Lemma sorted_int xs :
  Forall (fun x => key x = Ok (VInt (k x))) xs →
  sorted key xs = Ok (isort k xs).
Proof.
  intros H. unfold sorted.
  rewrite (mapM_Ok_map _ (keyed k)).
  - simpl. rewrite sort_keyed_int; simpl.
    f_equal. rewrite map_map; simpl. apply map_id.
  - eapply Forall_impl; [exact H|]. intros x Hx; simpl. by rewrite Hx.
Qed.
End SortedInt.

(** ** The stable insertion sort: permutation, order, stability *)

Section IsortFacts.
Context {A : Type} (k : A → Z).

Lemma insert_by_perm x l : insert_by k x l ≡ₚ x :: l.
Proof.
  induction l as [|y l IH]; simpl; [done|].
  destruct (k y <? k x)%Z; [|done].
  rewrite IH. apply Permutation_swap.
Qed.

Lemma isort_perm l : isort k l ≡ₚ l.
Proof.
  induction l as [|x l IH]; simpl; [done|].
  by rewrite insert_by_perm, IH.
Qed.

Lemma isort_length l : length (isort k l) = length l.
Proof. by rewrite isort_perm. Qed.

Lemma insert_by_sorted x l :
  StronglySorted (key_le k) l → StronglySorted (key_le k) (insert_by k x l).
Proof.
  induction 1 as [|y l Hl IH Hy]; simpl.
  - repeat constructor.
  - destruct (Z.ltb_spec (k y) (k x)) as [Hlt|Hge].
    + constructor; [done|].
      rewrite insert_by_perm. constructor; [unfold key_le; lia | done].
    + constructor; [by constructor|].
      constructor; [done|].
      eapply Forall_impl; [exact Hy|]. unfold key_le; intros; lia.
Qed.

Lemma isort_sorted l : StronglySorted (key_le k) (isort k l).
Proof.
  induction l as [|x l IH]; simpl; [constructor|].
  by apply insert_by_sorted.
Qed.

(** Inserting in front of a list whose keys are all at least the new
    key leaves the new item first. *)
Lemma insert_by_least x l :
  Forall (key_le k x) l → insert_by k x l = x :: l.
Proof.
  destruct 1 as [|y l Hy _]; simpl; [done|].
  unfold key_le in Hy. by destruct (Z.ltb_spec (k y) (k x)); [lia|].
Qed.

(** A list already in ascending key order is left as it is. *)
Lemma isort_id l : StronglySorted (key_le k) l → isort k l = l.
Proof.
  induction 1 as [|x l _ IH Hx]; simpl; [done|].
  rewrite IH. by apply insert_by_least.
Qed.

(** Stability: restricted to any class [P] of items that contains the new
    item only together with items of the same key, insertion is [cons]. *)
Lemma insert_by_filter (P : A → Prop) `{!∀ x, Decision (P x)} x l :
  (∀ y, y ∈ l → P x → P y → k y = k x) →
  filter P (insert_by k x l) = filter P (x :: l).
Proof.
  induction l as [|y l IH]; simpl; intros Hk; [done|].
  destruct (Z.ltb_spec (k y) (k x)) as [Hlt|Hge]; [|done].
  rewrite filter_cons, IH by (intros; apply Hk; [by right|done..]).
  rewrite !filter_cons.
  destruct (decide (P y)) as [Py|]; [|done].
  destruct (decide (P x)) as [Px|]; [|done].
  specialize (Hk y (list_elem_of_here _ _) Px Py). lia.
Qed.

(** Stability of the sort: the items of any one key keep their order. *)
Lemma isort_stable v l :
  filter (fun x => k x = v) (isort k l) = filter (fun x => k x = v) l.
Proof.
  induction l as [|x l IH]; simpl; [done|].
  rewrite insert_by_filter by (intros; congruence).
  by rewrite !filter_cons, IH.
Qed.
End IsortFacts.

(** Sorting by [k1] a list that is in ascending order of [k2] gives a list
    in ascending lexicographic order of [(k1, k2)]. *)
Section Lex.
Context {A : Type} (k1 k2 : A → Z).

Lemma insert_by_lex x l :
  Forall (key_le k2 x) l →
  StronglySorted (lex_le k1 k2) l → StronglySorted (lex_le k1 k2) (insert_by k1 x l).
Proof.
  intros Hx Hl; induction Hl as [|y l Hl IH Hy]; simpl.
  - repeat constructor.
  - apply Forall_cons in Hx as [Hxy Hx].
    destruct (Z.ltb_spec (k1 y) (k1 x)) as [Hlt|Hge].
    + constructor; [by apply IH|].
      rewrite insert_by_perm. constructor; [by left | done].
    + constructor; [by constructor|].
      assert (lex_le k1 k2 x y) as Hle.
      { unfold lex_le, key_le in *. lia. }
      constructor; [done|].
      rewrite Forall_forall in Hy, Hx |- *. intros z Hz.
      specialize (Hy z Hz). specialize (Hx z Hz).
      unfold lex_le, key_le in *. lia.
Qed.

Lemma isort_lex l :
  StronglySorted (key_le k2) l → StronglySorted (lex_le k1 k2) (isort k1 l).
Proof.
  induction 1 as [|x l _ IH Hx]; simpl; [constructor|].
  apply insert_by_lex; [|done].
  by rewrite isort_perm.
Qed.

(** Two lexicographically sorted permutations of one another show the
    same sequence of [p], when [p] is determined by the two keys. *)
Lemma lex_sorted_map_eq {B} (p : A → B) l1 l2 :
  (∀ x y, x ∈ l1 → y ∈ l1 → k1 x = k1 y → k2 x = k2 y → p x = p y) →
  StronglySorted (lex_le k1 k2) l1 → StronglySorted (lex_le k1 k2) l2 → l1 ≡ₚ l2 →
  map p l1 = map p l2.
Proof.
  intros Hp H1 H2 E.
  set (t := fun x => (k1 x, k2 x, p x)).
  set (R := fun a b : Z * Z * B =>
              (a.1.1 < b.1.1 ∨ (a.1.1 = b.1.1 ∧ a.1.2 ≤ b.1.2))%Z).
  assert (map t l1 = map t l2) as Ht.
  { apply (StronglySorted_unique_strong R).
    - intros a b Ha Hb Hab Hba.
      apply list_elem_of_fmap in Ha as (x & -> & Hx).
      apply list_elem_of_fmap in Hb as (y & -> & Hy).
      rewrite <- E in Hy. unfold R, t in *; simpl in *.
      assert (k1 x = k1 y ∧ k2 x = k2 y) as [E1 E2] by lia.
      by rewrite E1, E2, (Hp x y).
    - by apply (StronglySorted_fmap t (lex_le k1 k2) R).
    - by apply (StronglySorted_fmap t (lex_le k1 k2) R).
    - by apply fmap_Permutation. }
  apply (f_equal (map snd)) in Ht.
  by rewrite !map_map in Ht.
Qed.
End Lex.

(** ** The loop of [group_text_into_rows] against [spec_rows] *)

Lemma getitem_int k b :
  has_int k b → getitem b k = Ok (VInt (int_of k b)).
Proof.
  unfold has_int, getitem, int_of.
  by destruct (b !! k) as [[]|].
Qed.

Lemma getitem_text b :
  has_str "text" b → bind (getitem b "text") py_strip = Ok (cell_of b).
Proof.
  unfold has_str, getitem, cell_of.
  by destruct (b !! "text") as [[]|].
Qed.

Lemma readable_top b : readable b → has_int "top" b.
Proof. unfold readable. rewrite !andb_True. tauto. Qed.

Lemma readable_left b : readable b → has_int "left" b.
Proof. unfold readable. rewrite !andb_True. tauto. Qed.

Lemma readable_text b : readable b → has_str "text" b.
Proof. unfold readable. rewrite !andb_True. tauto. Qed.

Lemma well_formed_readable b : well_formed b → readable b.
Proof. unfold well_formed. rewrite !andb_True. tauto. Qed.

Lemma group_step_int rows cur a f :
  has_int "top" f →
  group_step (rows, cur, VInt a) f
  = Ok (if (Z.abs (top_of f - a) <=? 5)%Z
        then (rows, cur ++ [f], VInt a)
        else (rows ++ [cur], [f], VInt (top_of f))).
Proof.
  intros Hf. unfold group_step.
  rewrite (getitem_int _ _ Hf); simpl.
  fold (top_of f). by destruct (Z.abs (top_of f - a) <=? 5)%Z.
Qed.

Lemma foldM_group_step rest : ∀ rows cur a,
  Forall (has_int "top") rest →
  ∃ rows' cur' a',
    foldM group_step (rows, cur, VInt a) rest = Ok (rows', cur', VInt a')
    ∧ rows' ++ [cur'] = rows ++ spec_rows a cur rest.
Proof.
  induction rest as [|f rest IH]; intros rows cur a Hrest; cbn [foldM spec_rows].
  { by exists rows, cur, a. }
  apply Forall_cons in Hrest as [Hf Hrest].
  rewrite (group_step_int _ _ _ _ Hf); cbn [bind].
  destruct (Z.abs (top_of f - a) <=? 5)%Z.
  - apply IH, Hrest.
  - destruct (IH (rows ++ [cur]) [f] (top_of f) Hrest)
      as (rows' & cur' & a' & -> & Heq).
    exists rows', cur', a'. split; [done|].
    by rewrite Heq, <- app_assoc.
Qed.

(** On blocks with an integer [top], the Row Grouper returns the rows the
    specification's procedure forms from the stably sorted blocks. *)
Lemma group_text_into_rows_rows_of blocks :
  Forall (has_int "top") blocks →
  group_text_into_rows blocks = Ok (rows_of (isort top_of blocks)).
Proof.
  intros Hb. destruct blocks as [|b0 blocks']; [done|].
  set (blocks := b0 :: blocks') in *.
  unfold group_text_into_rows. fold blocks.
  rewrite (sorted_int _ top_of)
    by (eapply Forall_impl; [exact Hb|]; intros; by apply getitem_int).
  cbn [bind].
  assert (Forall (has_int "top") (isort top_of blocks)) as Hs
    by (by rewrite isort_perm).
  destruct (isort top_of blocks) as [|first rest] eqn:E.
  { apply (f_equal length) in E. by rewrite isort_length in E. }
  apply Forall_cons in Hs as [Hfirst Hrest].
  rewrite (getitem_int _ _ Hfirst); cbn [bind].
  destruct (foldM_group_step rest [] [first] (top_of first) Hrest)
    as (rows' & cur' & a' & Hfold & Heq).
  fold (top_of first). rewrite Hfold; cbn [bind]. by rewrite Heq.
Qed.

(** ** Shape of the rows *)

Lemma spec_rows_concat rest : ∀ a cur,
  concat (spec_rows a cur rest) = cur ++ rest.
Proof.
  induction rest as [|f rest IH]; intros a cur; simpl.
  - by rewrite app_nil_r.
  - destruct (Z.abs (top_of f - a) <=? 5)%Z; simpl.
    + by rewrite IH, <- app_assoc.
    + by rewrite IH.
Qed.

Lemma rows_of_concat s : concat (rows_of s) = s.
Proof. destruct s; simpl; [done|]. by rewrite spec_rows_concat. Qed.

Lemma spec_rows_nonempty rest : ∀ a cur,
  cur ≠ [] → Forall (fun row => row ≠ []) (spec_rows a cur rest).
Proof.
  induction rest as [|f rest IH]; intros a cur Hcur; simpl.
  - by constructor.
  - destruct (Z.abs (top_of f - a) <=? 5)%Z.
    + apply IH. by destruct cur.
    + constructor; [done|]. by apply IH.
Qed.

Lemma rows_of_nonempty s : Forall (fun row => row ≠ []) (rows_of s).
Proof. destruct s; simpl; [constructor|]. by apply spec_rows_nonempty. Qed.

Lemma elem_of_concat {A} (x : A) (ls : list (list A)) :
  x ∈ concat ls ↔ ∃ l, l ∈ ls ∧ x ∈ l.
Proof.
  rewrite list_elem_of_In, in_concat.
  split; intros (l & Hl & Hx); exists l; by rewrite ?list_elem_of_In in *.
Qed.

Lemma rows_of_elem s row f : row ∈ rows_of s → f ∈ row → f ∈ s.
Proof.
  intros Hrow Hf. rewrite <- (rows_of_concat s).
  apply elem_of_concat. eauto.
Qed.

(** Every fragment of a row is within 5 of the row's anchor: the loop
    alone ensures it, whatever the order of the blocks. *)
Lemma spec_rows_within rest : ∀ a cur,
  cur ≠ [] → anchor_of cur = a → Forall (within5 a) cur →
  Forall (fun row => Forall (within5 (anchor_of row)) row) (spec_rows a cur rest).
Proof.
  induction rest as [|f rest IH]; intros a cur Hne Ha Hcur; simpl.
  - constructor; [by rewrite Ha | constructor].
  - destruct (Z.leb_spec (Z.abs (top_of f - a)) 5) as [Hle|Hgt].
    + apply IH.
      * by destruct cur.
      * by destruct cur.
      * apply Forall_app. split; [done|]. by repeat constructor.
    + constructor; [by rewrite Ha|].
      apply IH; [done..|].
      repeat constructor. unfold within5. rewrite Z.sub_diag. simpl. lia.
Qed.

Lemma rows_of_within s :
  Forall (fun row => Forall (within5 (anchor_of row)) row) (rows_of s).
Proof.
  destruct s as [|f s]; simpl; [constructor|].
  apply spec_rows_within; [done..|].
  repeat constructor. unfold within5. rewrite Z.sub_diag. simpl. lia.
Qed.

(** ** Rows of a list in ascending order of [top] *)

Lemma anchor_le_of_sorted cur rest f :
  cur ≠ [] → StronglySorted by_top (cur ++ rest) → f ∈ rest →
  (anchor_of cur ≤ top_of f)%Z.
Proof.
  intros Hne Hs Hf. destruct cur as [|c cur]; [done|]. simpl.
  change (by_top c f).
  eapply (StronglySorted_app_1_elem_of _ (c :: cur) rest); [done| by left |done].
Qed.

Lemma spec_rows_before rest : ∀ a cur,
  cur ≠ [] → anchor_of cur = a → StronglySorted by_top (cur ++ rest) →
  StronglySorted row_before (spec_rows a cur rest).
Proof.
  induction rest as [|f rest IH]; intros a cur Hne Ha Hs; simpl.
  - repeat constructor.
  - destruct (Z.leb_spec (Z.abs (top_of f - a)) 5) as [Hle|Hgt].
    + apply IH; [by destruct cur | by destruct cur | by rewrite <- app_assoc].
    + assert (a ≤ top_of f)%Z as Haf.
      { subst a. apply (anchor_le_of_sorted cur (f :: rest)); [done..|by left]. }
      pose proof (StronglySorted_app_1_r _ _ _ Hs) as Hs'.
      constructor; [by apply IH|].
      apply Forall_forall. intros row Hrow g Hg.
      assert (g ∈ f :: rest) as Hin.
      { change (g ∈ [f] ++ rest). rewrite <- (spec_rows_concat rest (top_of f)).
        apply elem_of_concat; eauto. }
      assert (top_of f ≤ top_of g)%Z.
      { apply elem_of_cons in Hin as [->|Hin]; [lia|].
        apply StronglySorted_cons in Hs' as [Hf _].
        rewrite Forall_forall in Hf. by apply Hf. }
      lia.
Qed.

Lemma rows_of_before s :
  StronglySorted by_top s → StronglySorted row_before (rows_of s).
Proof.
  destruct s as [|f s]; simpl; [constructor|].
  intros Hs. by apply spec_rows_before.
Qed.

Lemma spec_rows_sorted rest : ∀ a cur,
  StronglySorted by_top (cur ++ rest) →
  Forall (StronglySorted by_top) (spec_rows a cur rest).
Proof.
  induction rest as [|f rest IH]; intros a cur Hs; simpl.
  - rewrite app_nil_r in Hs. by constructor.
  - destruct (Z.abs (top_of f - a) <=? 5)%Z.
    + apply IH. by rewrite <- app_assoc.
    + constructor; [by eapply StronglySorted_app_1_l|].
      apply IH. by eapply StronglySorted_app_1_r.
Qed.

Lemma rows_of_sorted s :
  StronglySorted by_top s → Forall (StronglySorted by_top) (rows_of s).
Proof.
  destruct s as [|f s]; simpl; [constructor|].
  intros Hs. by apply spec_rows_sorted.
Qed.

(** In a strongly sorted list of rows, the positions of two rows decide
    which is before the other. *)
Lemma StronglySorted_lookup_lt {A} (R : relation A) l i j x y :
  StronglySorted R l → l !! i = Some x → l !! j = Some y → i < j → R x y.
Proof.
  intros Hl; revert i j. induction Hl as [|z l Hl IH Hz]; intros i j Hi Hj Hlt.
  { done. }
  destruct j as [|j]; [lia|]. simpl in Hj.
  destruct i as [|i]; simpl in Hi.
  - inversion Hi; subst. rewrite Forall_forall in Hz.
    eapply Hz, list_elem_of_lookup_2, Hj.
  - eapply IH; [done..|lia].
Qed.

(** ** The first row as a filter *)

Lemma filter_all {A} (P : A → Prop) `{!∀ x, Decision (P x)} l :
  Forall P l → filter P l = l.
Proof.
  induction 1 as [|x l Hx _ IH]; [done|].
  by rewrite filter_cons_True, IH.
Qed.

Lemma filter_none {A} (P : A → Prop) `{!∀ x, Decision (P x)} l :
  Forall (fun x => ¬ P x) l → filter P l = [].
Proof.
  induction 1 as [|x l Hx _ IH]; [done|].
  by rewrite filter_cons_False, IH.
Qed.

Lemma StronglySorted_filter {A} (R : relation A) (P : A → Prop)
    `{!∀ x, Decision (P x)} l :
  StronglySorted R l → StronglySorted R (filter P l).
Proof.
  induction 1 as [|x l Hl IH Hx]; [constructor|].
  rewrite filter_cons. destruct (decide (P x)); [|done].
  constructor; [done|].
  rewrite Forall_forall in Hx |- *. intros y Hy.
  apply list_elem_of_filter in Hy as [_ Hy]. by apply Hx.
Qed.

(** The row that starts at the least [top] holds exactly the blocks at
    most 5 below it; the other rows are the rows of the remaining blocks. *)
Lemma spec_rows_filter rest : ∀ a cur,
  cur ≠ [] → anchor_of cur = a → Forall (low a) cur →
  StronglySorted by_top (cur ++ rest) →
  spec_rows a cur rest
  = filter (low a) (cur ++ rest)
    :: rows_of (filter (fun f => ¬ low a f) (cur ++ rest)).
Proof.
  induction rest as [|f rest IH]; intros a cur Hne Ha Hcur Hs; simpl.
  - rewrite app_nil_r, filter_all, filter_none; [done| |done].
    eapply Forall_impl; [exact Hcur|]. tauto.
  - assert (a ≤ top_of f)%Z as Haf.
    { subst a. apply (anchor_le_of_sorted cur (f :: rest)); [done..|by left]. }
    destruct (Z.leb_spec (Z.abs (top_of f - a)) 5) as [Hle|Hgt].
    + rewrite IH.
      * by rewrite <- !app_assoc.
      * by destruct cur.
      * by destruct cur.
      * apply Forall_app. split; [done|]. repeat constructor. unfold low. lia.
      * by rewrite <- app_assoc.
    + pose proof (StronglySorted_app_1_r _ _ _ Hs) as Hs'.
      assert (Forall (fun g => ¬ low a g) (f :: rest)) as Hhigh.
      { apply StronglySorted_cons in Hs' as [Hf _].
        constructor; [unfold low; lia|].
        eapply Forall_impl; [exact Hf|]. unfold key_le, low. intros; lia. }
      rewrite !filter_app, (filter_all (low a) cur), (filter_none (low a) (f :: rest)),
        (filter_none _ cur), (filter_all _ (f :: rest)), app_nil_r; try done.
      eapply Forall_impl; [exact Hcur|]. tauto.
Qed.

Lemma rows_of_filter f s :
  StronglySorted by_top (f :: s) →
  rows_of (f :: s)
  = filter (low (top_of f)) (f :: s)
    :: rows_of (filter (fun g => ¬ low (top_of f) g) (f :: s)).
Proof.
  intros Hs. simpl rows_of.
  rewrite (spec_rows_filter s (top_of f) [f]); [done..| |done].
  repeat constructor. unfold low. lia.
Qed.

(** The rows depend on the sorted blocks only up to the order of blocks
    that share a row. *)
Lemma rows_of_perm n : ∀ s1 s2,
  length s1 ≤ n →
  StronglySorted by_top s1 → StronglySorted by_top s2 → s1 ≡ₚ s2 →
  Forall2 (≡ₚ) (rows_of s1) (rows_of s2).
Proof.
  induction n as [|n IH]; intros s1 s2 Hn H1 H2 E.
  { destruct s1; [|simpl in Hn; lia].
    apply Permutation_nil in E. subst. constructor. }
  destruct s1 as [|x s1].
  { apply Permutation_nil in E. subst. constructor. }
  destruct s2 as [|y s2].
  { by apply Permutation_nil_r in E. }
  assert (top_of x = top_of y) as Exy.
  { pose proof (proj1 (StronglySorted_cons _ _ _) H1) as [Hx _].
    pose proof (proj1 (StronglySorted_cons _ _ _) H2) as [Hy _].
    rewrite Forall_forall in Hx, Hy.
    assert (y ∈ x :: s1) as Hin2 by (rewrite E; left).
    assert (x ∈ y :: s2) as Hin1 by (rewrite <- E; left).
    apply elem_of_cons in Hin1 as [->|Hin1]; [done|].
    apply elem_of_cons in Hin2 as [->|Hin2]; [done|].
    specialize (Hx _ Hin2). specialize (Hy _ Hin1).
    unfold key_le in *. lia. }
  rewrite (rows_of_filter x s1 H1), (rows_of_filter y s2 H2), <- Exy.
  constructor; [by rewrite E|].
  apply IH.
  - rewrite filter_cons_False by (unfold low; lia).
    pose proof (length_filter (fun g => ¬ low (top_of x) g) s1).
    simpl in Hn. lia.
  - by apply StronglySorted_filter.
  - by apply StronglySorted_filter.
  - by rewrite E.
Qed.

(** ** The Table Assembler on readable blocks *)

Lemma sort_row_into_columns_int row :
  Forall (has_int "left") row →
  sort_row_into_columns row = Ok (isort left_of row).
Proof.
  intros Hrow. unfold sort_row_into_columns.
  apply sorted_int. eapply Forall_impl; [exact Hrow|].
  intros; by apply getitem_int.
Qed.

Lemma organize_step_readable acc row :
  Forall readable row →
  organize_step acc row = Ok (acc ++ [record_of row]).
Proof.
  intros Hrow. unfold organize_step.
  rewrite sort_row_into_columns_int
    by (eapply Forall_impl; [exact Hrow|]; apply readable_left).
  cbn [bind].
  rewrite (mapM_Ok_map _ cell_of); [done|].
  rewrite isort_perm.
  eapply Forall_impl; [exact Hrow|].
  intros b Hb. by apply getitem_text, readable_text.
Qed.

Lemma foldM_organize_step rows : ∀ acc,
  Forall (Forall readable) rows →
  foldM organize_step acc rows = Ok (acc ++ map record_of rows).
Proof.
  induction rows as [|row rows IH]; intros acc Hrows; cbn [foldM map].
  - by rewrite app_nil_r.
  - apply Forall_cons in Hrows as [Hrow Hrows].
    rewrite (organize_step_readable _ _ Hrow); cbn [bind].
    rewrite IH by done. by rewrite <- app_assoc.
Qed.

Lemma rows_of_Forall (P : block → Prop) s :
  Forall P s → Forall (Forall P) (rows_of s).
Proof.
  intros Hs. apply Forall_forall; intros row Hrow.
  apply Forall_forall; intros f Hf.
  rewrite Forall_forall in Hs. eapply Hs, rows_of_elem; eauto.
Qed.

Lemma organize_into_table_readable blocks :
  Forall readable blocks →
  organize_into_table blocks
  = Ok (map record_of (rows_of (isort top_of blocks))).
Proof.
  intros Hb. unfold organize_into_table.
  rewrite group_text_into_rows_rows_of
    by (eapply Forall_impl; [exact Hb|]; apply readable_top).
  cbn [bind]. rewrite foldM_organize_step; [done|].
  apply rows_of_Forall. by rewrite isort_perm.
Qed.

(** ** What any successful run has read *)

Lemma mapM_Ok_Forall2 {A B} (f : A → result B) xs ys :
  mapM f xs = Ok ys → Forall2 (fun x y => f x = Ok y) xs ys.
Proof.
  revert ys; induction xs as [|x xs IH]; cbn [mapM]; intros ys H.
  - inversion H. constructor.
  - apply bind_Ok in H as (y & Hy & H). apply bind_Ok in H as (ys' & H' & H).
    inversion H; subst. constructor; eauto.
Qed.

Lemma insert_keyed_perm {A} (kx : value * A) l r :
  insert_keyed kx l = Ok r → r ≡ₚ kx :: l.
Proof.
  revert r; induction l as [|ky l IH]; cbn [insert_keyed]; intros r H.
  - by inversion H.
  - apply bind_Ok in H as (c & _ & H). destruct c.
    + apply bind_Ok in H as (r' & Hr' & H). inversion H; subst.
      rewrite (IH _ Hr'). apply Permutation_swap.
    + by inversion H.
Qed.

Lemma sort_keyed_perm {A} (l r : list (value * A)) :
  sort_keyed l = Ok r → r ≡ₚ l.
Proof.
  revert r; induction l as [|kx l IH]; cbn [sort_keyed]; intros r H.
  - by inversion H.
  - apply bind_Ok in H as (s & Hs & H).
    rewrite (insert_keyed_perm _ _ _ H). by rewrite (IH _ Hs).
Qed.

(** [sorted] returns a permutation of its argument, and only after the key
    of every item has been computed. *)
Lemma sorted_Ok {A} (key : A → result value) xs ys :
  sorted key xs = Ok ys →
  ys ≡ₚ xs ∧ Forall (fun x => ∃ v, key x = Ok v) xs.
Proof.
  unfold sorted. intros H.
  apply bind_Ok in H as (kxs & Hk & H). apply bind_Ok in H as (s & Hs & H).
  inversion H; subst; clear H.
  apply mapM_Ok_Forall2 in Hk. apply sort_keyed_perm in Hs.
  assert (map snd kxs = xs ∧ Forall (fun x => ∃ v, key x = Ok v) xs) as [E HF].
  { clear Hs. induction Hk as [|x kx xs kxs Hx _ [IH1 IH2]]; [by split|].
    apply bind_Ok in Hx as (v & Hv & Hx). inversion Hx; subst; simpl.
    split; [by f_equal | constructor; eauto]. }
  split; [|done]. rewrite <- E. by apply fmap_Permutation.
Qed.

Lemma group_step_Ok rows cur y f rows' cur' y' :
  group_step (rows, cur, y) f = Ok (rows', cur', y') →
  concat (rows' ++ [cur']) = concat (rows ++ [cur]) ++ [f].
Proof.
  unfold group_step. intros H.
  apply bind_Ok in H as (t & _ & H). apply bind_Ok in H as (d & _ & H).
  apply bind_Ok in H as (yd & _ & H). apply bind_Ok in H as (c & _ & H).
  destruct c.
  - inversion H; subst. rewrite !concat_app; simpl.
    by rewrite !app_nil_r, app_assoc.
  - apply bind_Ok in H as (t' & _ & H). inversion H; subst.
    rewrite !concat_app; simpl. by rewrite !app_nil_r.
Qed.

Lemma foldM_group_step_Ok rest : ∀ rows cur y rows' cur' y',
  foldM group_step (rows, cur, y) rest = Ok (rows', cur', y') →
  concat (rows' ++ [cur']) = concat (rows ++ [cur]) ++ rest.
Proof.
  induction rest as [|f rest IH]; intros rows cur y rows' cur' y' H;
    cbn [foldM] in H.
  - inversion H; subst. by rewrite app_nil_r.
  - apply bind_Ok in H as ([[rows1 cur1] y1] & Hstep & H).
    rewrite (IH _ _ _ _ _ _ H), (group_step_Ok _ _ _ _ _ _ _ Hstep).
    by rewrite <- app_assoc.
Qed.

(** Whenever the Row Grouper returns, its rows hold the input blocks, each
    once, and every block had a [top]. *)
Lemma group_text_into_rows_Ok blocks rows :
  group_text_into_rows blocks = Ok rows →
  concat rows ≡ₚ blocks ∧ Forall (fun b => is_Some (b !! "top")) blocks.
Proof.
  destruct blocks as [|b0 blocks'].
  { intros H; inversion H. by split. }
  set (blocks := b0 :: blocks'). unfold group_text_into_rows. fold blocks.
  intros H. apply bind_Ok in H as (s & Hs & H).
  apply sorted_Ok in Hs as [Hperm Hkeys].
  split.
  - destruct s as [|first rest]; [done|].
    apply bind_Ok in H as (y & _ & H).
    apply bind_Ok in H as ([[rows1 cur1] y1] & Hfold & H).
    inversion H; subst. rewrite (foldM_group_step_Ok _ _ _ _ _ _ _ Hfold).
    by simpl.
  - eapply Forall_impl; [exact Hkeys|]. intros b [v Hv].
    unfold getitem in Hv. by destruct (b !! "top").
Qed.

Lemma organize_step_Ok acc row acc' :
  organize_step acc row = Ok acc' →
  ∃ texts, acc' = acc ++ [texts] ∧ length texts = length row
           ∧ Forall cells_read row.
Proof.
  unfold organize_step, sort_row_into_columns. intros H.
  apply bind_Ok in H as (srow & Hs & H). apply bind_Ok in H as (texts & Ht & H).
  inversion H; subst. exists texts.
  apply sorted_Ok in Hs as [Hperm Hkeys].
  split; [done|]. split.
  - by rewrite (mapM_length _ _ _ Ht), Hperm.
  - apply mapM_Ok_Forall2, Forall2_Forall_l with (Q := fun b =>
      ∃ s, b !! "text" = Some (VStr s)) in Ht.
    + rewrite Hperm in Ht. rewrite Forall_forall in Ht, Hkeys |- *.
      intros b Hb. split; [|by apply Ht].
      destruct (Hkeys b Hb) as [v Hv]. unfold getitem in Hv.
      by destruct (b !! "left").
    + apply Forall_forall. intros t _ b Hb. unfold getitem in Hb.
      destruct (b !! "text") as [[]|]; simpl in Hb; try discriminate; eauto.
Qed.

Lemma foldM_organize_step_Ok rows : ∀ acc table,
  foldM organize_step acc rows = Ok table →
  length (concat table) = length (concat acc) + length (concat rows)
  ∧ Forall (Forall cells_read) rows.
Proof.
  induction rows as [|row rows IH]; intros acc table H; cbn [foldM] in H.
  - inversion H; subst. simpl. split; [lia | constructor].
  - apply bind_Ok in H as (acc' & Hstep & H).
    apply organize_step_Ok in Hstep as (texts & -> & Hlen & Hrow).
    apply IH in H as [H Hrows]. split; [|by constructor].
    rewrite H, concat_app, !length_app; simpl.
    rewrite !length_app; simpl. lia.
Qed.

(** ** [strip] trims *)

Lemma lstrip_spec s :
  ∃ pre, s = pre ++ lstrip s ∧ Forall (fun c => isspace c) pre
         ∧ (∀ c, head (lstrip s) = Some c → ¬ isspace c).
Proof.
  induction s as [|c s (pre & E & Hpre & Hhd)]; simpl.
  - exists []. split; [done|]. split; [constructor|]. intros c; simpl. discriminate.
  - destruct (isspace c) eqn:Hc.
    + exists (c :: pre). split; [by rewrite E at 1|].
      split; [|done]. constructor; [by rewrite Hc | done].
    + exists []. split; [done|]. split; [constructor|].
      intros c' Hc'. simpl in Hc'. inversion Hc'; subst.
      by apply Is_true_false_2.
Qed.

Lemma rstrip_spec s :
  ∃ suf, s = rstrip s ++ suf ∧ Forall (fun c => isspace c) suf
         ∧ (∀ c, last (rstrip s) = Some c → ¬ isspace c).
Proof.
  unfold rstrip.
  destruct (lstrip_spec (reverse s)) as (pre & E & Hpre & Hhd).
  exists (reverse pre). split; [|split].
  - rewrite <- reverse_app, <- E. by rewrite reverse_involutive.
  - by apply Forall_reverse.
  - intros c. rewrite last_reverse. apply Hhd.
Qed.

Lemma strip_trimmed s : trimmed_of s (strip s).
Proof.
  unfold strip.
  destruct (rstrip_spec s) as (suf & Es & Hsuf & Hlast).
  destruct (lstrip_spec (rstrip s)) as (pre & Er & Hpre & Hhd).
  exists pre, suf. split; [|repeat split; try done].
  - by rewrite app_assoc, <- Er.
  - intros c Hc. apply Hlast. rewrite Er. by apply last_app_Some; left.
Qed.

(** ** The Row Grouper *)

Lemma sorted_top_int blocks :
  Forall (has_int "top") blocks →
  sorted (fun x => getitem x "top") blocks = Ok (isort top_of blocks).
Proof.
  intros Hb. apply sorted_int.
  eapply Forall_impl; [exact Hb|]. intros; by apply getitem_int.
Qed.

(** C1. On a non-empty collection the Row Grouper walks the blocks in
    ascending order of [top] (ties in input order) and forms its rows by the
    specification's procedure: a block joins the current row exactly when
    its [top] is within 5 of the row's anchor, and otherwise closes the row
    and becomes the anchor of the next.  The anchor does not move while a
    row grows: tops 0, 3, 4 make one row and a following 9 starts a new
    one. *)
Theorem C1_row_grouper_procedure (blocks : list block) :
  blocks ≠ [] → Forall (has_int "top") blocks →
  (∃ first rest,
      sorted (fun x => getitem x "top") blocks = Ok (first :: rest)
      ∧ first :: rest ≡ₚ blocks
      ∧ StronglySorted by_top (first :: rest)
      ∧ (∀ v, filter (fun f => top_of f = v) (first :: rest)
              = filter (fun f => top_of f = v) blocks)
      ∧ group_text_into_rows blocks
        = Ok (spec_rows (top_of first) [first] rest))
  ∧ (∀ f0 f3 f4 f9 : block,
      f0 !! "top" = Some (VInt 0) → f3 !! "top" = Some (VInt 3) →
      f4 !! "top" = Some (VInt 4) → f9 !! "top" = Some (VInt 9) →
      group_text_into_rows [f0; f3; f4; f9] = Ok [[f0; f3; f4]; [f9]]).
Proof.
  intros Hne Hb. split.
  - pose proof (isort_perm top_of blocks) as Hperm.
    pose proof (isort_sorted top_of blocks) as Hsorted.
    pose proof (fun v => isort_stable top_of v blocks) as Hstable.
    pose proof (group_text_into_rows_rows_of blocks Hb) as Hrows.
    pose proof (sorted_top_int blocks Hb) as Hs.
    destruct (isort top_of blocks) as [|first rest].
    { apply Permutation_nil in Hperm. by subst. }
    exists first, rest. repeat split; done.
  - intros f0 f3 f4 f9 H0 H3 H4 H9.
    assert (top_of f0 = 0 ∧ top_of f3 = 3 ∧ top_of f4 = 4 ∧ top_of f9 = 9)%Z
      as (T0 & T3 & T4 & T9).
    { unfold top_of, int_of. by rewrite H0, H3, H4, H9. }
    rewrite group_text_into_rows_rows_of.
    + rewrite isort_id.
      * simpl. by rewrite T0, T3, T4, T9.
      * repeat constructor; unfold key_le; lia.
    + repeat constructor; unfold has_int; by rewrite ?H0, ?H3, ?H4, ?H9.
Qed.

Lemma C1_row_grouper_procedure_witness :
  (∃ first rest,
      sorted (fun x => getitem x "top") drift_blocks = Ok (first :: rest)
      ∧ first :: rest ≡ₚ drift_blocks
      ∧ StronglySorted by_top (first :: rest)
      ∧ (∀ v, filter (fun f => top_of f = v) (first :: rest)
              = filter (fun f => top_of f = v) drift_blocks)
      ∧ group_text_into_rows drift_blocks
        = Ok (spec_rows (top_of first) [first] rest))
  ∧ (∀ f0 f3 f4 f9 : block,
      f0 !! "top" = Some (VInt 0) → f3 !! "top" = Some (VInt 3) →
      f4 !! "top" = Some (VInt 4) → f9 !! "top" = Some (VInt 9) →
      group_text_into_rows [f0; f3; f4; f9] = Ok [[f0; f3; f4]; [f9]]).
Proof.
  apply (C1_row_grouper_procedure drift_blocks).
  - discriminate.
  - unfold drift_blocks. forall_true.
Defined.

(** Shared by the claims on rows: what holds of the rows returned for
    blocks with an integer [top]. *)
Lemma group_text_into_rows_facts blocks :
  Forall (has_int "top") blocks →
  ∃ rows,
    group_text_into_rows blocks = Ok rows
    ∧ concat rows ≡ₚ blocks
    ∧ Forall (fun row => row ≠ []) rows
    ∧ Forall (fun row => Forall (within5 (anchor_of row)) row) rows
    ∧ StronglySorted row_before rows.
Proof.
  intros Hb. exists (rows_of (isort top_of blocks)).
  split; [by apply group_text_into_rows_rows_of|].
  split; [by rewrite rows_of_concat, isort_perm|].
  split; [apply rows_of_nonempty|].
  split; [apply rows_of_within|].
  apply rows_of_before, isort_sorted.
Qed.

(** A block of a later row lies more than 5 below the anchor of an
    earlier row, and so below every block of that row. *)
Lemma rows_later_below (rows : list (list block)) i j r1 r2 f g :
  Forall (fun row => Forall (within5 (anchor_of row)) row) rows →
  StronglySorted row_before rows →
  rows !! i = Some r1 → rows !! j = Some r2 → i < j → f ∈ r1 → g ∈ r2 →
  (anchor_of r1 + 5 < top_of g ∧ top_of f < top_of g)%Z.
Proof.
  intros Hw Hs Hi Hj Hlt Hf Hg.
  pose proof (StronglySorted_lookup_lt _ _ _ _ _ _ Hs Hi Hj Hlt g Hg) as Hbefore.
  split; [done|].
  pose proof (Forall_lookup_1 _ _ _ _ Hw Hi) as Hr1.
  rewrite Forall_forall in Hr1. specialize (Hr1 f Hf).
  unfold within5 in Hr1. lia.
Qed.

(** C2. In the Row Grouper's output every fragment of a row has a [top]
    within 5 of the [top] of the row's anchor (its first fragment), and of
    two fragments in different rows at least one is not within 5 of the
    anchor of the other's row. *)
Theorem C2_clustering_invariant (blocks : list block) :
  Forall (has_int "top") blocks →
  ∃ rows,
    group_text_into_rows blocks = Ok rows
    ∧ (∀ row f, row ∈ rows → f ∈ row →
         (Z.abs (top_of f - anchor_of row) ≤ 5)%Z)
    ∧ (∀ i j r1 r2 f g,
         rows !! i = Some r1 → rows !! j = Some r2 → i ≠ j →
         f ∈ r1 → g ∈ r2 →
         ¬ (Z.abs (top_of f - anchor_of r2) ≤ 5)%Z
         ∨ ¬ (Z.abs (top_of g - anchor_of r1) ≤ 5)%Z).
Proof.
  intros Hb.
  destruct (group_text_into_rows_facts blocks Hb)
    as (rows & Hrows & _ & _ & Hw & Hs).
  exists rows. split; [done|]. split.
  - intros row f Hrow Hf. rewrite Forall_forall in Hw.
    specialize (Hw row Hrow). rewrite Forall_forall in Hw. by apply Hw.
  - intros i j r1 r2 f g Hi Hj Hne Hf Hg.
    destruct (Nat.lt_total i j) as [Hlt|[->|Hlt]]; [|done|].
    + right.
      destruct (rows_later_below rows i j r1 r2 f g Hw Hs Hi Hj Hlt Hf Hg).
      lia.
    + left.
      destruct (rows_later_below rows j i r2 r1 g f Hw Hs Hj Hi Hlt Hg Hf).
      lia.
Qed.

Lemma C2_clustering_invariant_witness :
  ∃ rows,
    group_text_into_rows drift_blocks = Ok rows
    ∧ (∀ row f, row ∈ rows → f ∈ row →
         (Z.abs (top_of f - anchor_of row) ≤ 5)%Z)
    ∧ (∀ i j r1 r2 f g,
         rows !! i = Some r1 → rows !! j = Some r2 → i ≠ j →
         f ∈ r1 → g ∈ r2 →
         ¬ (Z.abs (top_of f - anchor_of r2) ≤ 5)%Z
         ∨ ¬ (Z.abs (top_of g - anchor_of r1) ≤ 5)%Z).
Proof.
  apply (C2_clustering_invariant drift_blocks).
  unfold drift_blocks. forall_true.
Defined.

(** C8. Rows come in ascending vertical order: of two fragments in
    different rows, the one with the smaller [top] is in the earlier row,
    and every fragment of an earlier row has a smaller [top] than every
    fragment of a later one. *)
Theorem C8_rows_ascending (blocks : list block) :
  Forall (has_int "top") blocks →
  ∃ rows,
    group_text_into_rows blocks = Ok rows
    ∧ ∀ i j r1 r2 f g,
        rows !! i = Some r1 → rows !! j = Some r2 → i ≠ j →
        f ∈ r1 → g ∈ r2 →
        ((top_of f < top_of g)%Z ↔ i < j).
Proof.
  intros Hb.
  destruct (group_text_into_rows_facts blocks Hb)
    as (rows & Hrows & _ & _ & Hw & Hs).
  exists rows. split; [done|].
  intros i j r1 r2 f g Hi Hj Hne Hf Hg.
  destruct (Nat.lt_total i j) as [Hlt|[->|Hlt]]; [|done|].
  - destruct (rows_later_below rows i j r1 r2 f g Hw Hs Hi Hj Hlt Hf Hg).
    split; [done|lia].
  - destruct (rows_later_below rows j i r2 r1 g f Hw Hs Hj Hi Hlt Hg Hf).
    split; lia.
Qed.

Lemma C8_rows_ascending_witness :
  ∃ rows,
    group_text_into_rows drift_blocks = Ok rows
    ∧ ∀ i j r1 r2 f g,
        rows !! i = Some r1 → rows !! j = Some r2 → i ≠ j →
        f ∈ r1 → g ∈ r2 →
        ((top_of f < top_of g)%Z ↔ i < j).
Proof.
  apply (C8_rows_ascending drift_blocks).
  unfold drift_blocks. forall_true.
Defined.

(** C10. The Row Grouper's output partitions the input: no row is empty,
    the rows laid end to end are a permutation of the input blocks, and the
    assembled Table has as many cells as there are input fragments. *)
Theorem C10_rows_partition_input (blocks : list block) :
  Forall readable blocks →
  ∃ rows table,
    group_text_into_rows blocks = Ok rows
    ∧ organize_into_table blocks = Ok table
    ∧ Forall (fun row => row ≠ []) rows
    ∧ concat rows ≡ₚ blocks
    ∧ length (concat table) = length blocks.
Proof.
  intros Hb.
  assert (Forall (has_int "top") blocks) as Htop
    by (eapply Forall_impl; [exact Hb|]; apply readable_top).
  destruct (group_text_into_rows_facts blocks Htop)
    as (rows & Hrows & Hperm & Hne & _).
  pose proof (organize_into_table_readable blocks Hb) as Htable.
  eexists rows, _. repeat split; [done..|].
  pose proof Htable as Hlen. unfold organize_into_table in Hlen.
  rewrite Hrows in Hlen. cbn [bind] in Hlen.
  apply foldM_organize_step_Ok in Hlen as [Hlen _].
  rewrite Hlen. simpl. by rewrite Hperm.
Qed.

Lemma C10_rows_partition_input_witness :
  ∃ rows table,
    group_text_into_rows drift_blocks = Ok rows
    ∧ organize_into_table drift_blocks = Ok table
    ∧ Forall (fun row => row ≠ []) rows
    ∧ concat rows ≡ₚ drift_blocks
    ∧ length (concat table) = length drift_blocks.
Proof.
  apply (C10_rows_partition_input drift_blocks).
  unfold drift_blocks. forall_true.
Defined.

(** ** The Column Orderer *)

(** C5. The Column Orderer returns the fragments of a row in ascending
    order of [left]: the [left] values of the output never decrease, the
    output is a rearrangement of the row, and fragments with equal [left]
    keep their relative order. *)
Theorem C5_column_orderer (row : list block) :
  Forall (has_int "left") row →
  ∃ out,
    sort_row_into_columns row = Ok out
    ∧ out ≡ₚ row
    ∧ (∀ i j f g, out !! i = Some f → out !! j = Some g → i < j →
         (left_of f ≤ left_of g)%Z)
    ∧ (∀ v, filter (fun f => left_of f = v) out
            = filter (fun f => left_of f = v) row).
Proof.
  intros Hrow. exists (isort left_of row).
  split; [by apply sort_row_into_columns_int|].
  split; [apply isort_perm|]. split.
  - intros i j f g Hi Hj Hlt.
    apply (StronglySorted_lookup_lt (key_le left_of) _ i j f g
             (isort_sorted left_of row) Hi Hj Hlt).
  - intros v. apply isort_stable.
Qed.

Lemma C5_column_orderer_witness :
  ∃ out,
    sort_row_into_columns ragged_row = Ok out
    ∧ out ≡ₚ ragged_row
    ∧ (∀ i j f g, out !! i = Some f → out !! j = Some g → i < j →
         (left_of f ≤ left_of g)%Z)
    ∧ (∀ v, filter (fun f => left_of f = v) out
            = filter (fun f => left_of f = v) ragged_row).
Proof.
  apply (C5_column_orderer ragged_row).
  unfold ragged_row. forall_true.
Defined.

(** ** The Table Assembler *)

(** C6. On the empty collection the Row Grouper and the Table Assembler
    return the empty Table; neither raises. *)
Theorem C6_empty_input :
  group_text_into_rows [] = Ok [] ∧ organize_into_table [] = Ok [].
Proof. split; reflexivity. Qed.

Lemma StronglySorted_of_lookup {A} (R : relation A) l :
  (∀ i j x y, l !! i = Some x → l !! j = Some y → i < j → R x y) →
  StronglySorted R l.
Proof.
  induction l as [|x l IH]; intros H; constructor.
  - apply IH. intros i j y z Hi Hj Hlt. apply (H (S i) (S j)); [done..|lia].
  - apply Forall_lookup. intros j y Hj. apply (H 0 (S j)); [done..|lia].
Qed.

Lemma spec_rows_spaced rest : ∀ f,
  StronglySorted spaced (f :: rest) →
  spec_rows (top_of f) [f] rest = map (fun b => [b]) (f :: rest).
Proof.
  induction rest as [|g rest IH]; intros f Hs; [done|].
  apply StronglySorted_cons in Hs as [Hf Hs].
  apply Forall_cons in Hf as [Hfg _]. unfold spaced in Hfg.
  cbn [spec_rows].
  destruct (Z.leb_spec (Z.abs (top_of g - top_of f)) 5); [lia|].
  by rewrite (IH g Hs).
Qed.

Lemma rows_of_spaced s :
  StronglySorted spaced s → rows_of s = map (fun b => [b]) s.
Proof. destruct s as [|f rest]; [done|]. apply spec_rows_spaced. Qed.

(** Being pairwise related by a symmetric relation does not depend on the
    order of the list. *)
Lemma StronglySorted_symmetric_perm {A} (R : relation A) l l' :
  (∀ x y, R x y → R y x) →
  l ≡ₚ l' → StronglySorted R l → StronglySorted R l'.
Proof.
  intros Hsym. induction 1 as [|x l l' E IH|x y l|l l' l'' _ IH1 _ IH2];
    intros Hl.
  - done.
  - apply StronglySorted_cons in Hl as [Hx Hl].
    constructor; [by apply IH | by rewrite <- E].
  - apply StronglySorted_cons in Hl as [Hy Hl].
    apply StronglySorted_cons in Hl as [Hx Hl].
    apply Forall_cons in Hy as [Hyx Hy].
    repeat constructor; auto.
  - auto.
Qed.

Lemma StronglySorted_and {A} (R Q : relation A) l :
  StronglySorted R l → StronglySorted Q l →
  StronglySorted (fun x y => R x y ∧ Q x y) l.
Proof.
  induction 1 as [|x l _ IH Hx]; intros HQ; [constructor|].
  apply StronglySorted_cons in HQ as [Hx' HQ].
  constructor; [by apply IH|].
  rewrite Forall_forall in Hx, Hx' |- *. auto.
Qed.

Lemma StronglySorted_impl {A} (R Q : relation A) l :
  (∀ x y, R x y → Q x y) → StronglySorted R l → StronglySorted Q l.
Proof.
  intros HRQ. induction 1 as [|x l _ IH Hx]; constructor; [done|].
  eapply Forall_impl; [exact Hx|]. auto.
Qed.

(** Blocks pairwise more than 5 apart are, once sorted, each more than 5
    below the next. *)
Lemma isort_spaced blocks :
  StronglySorted apart blocks → StronglySorted spaced (isort top_of blocks).
Proof.
  intros Hap.
  apply (StronglySorted_impl (fun f g => apart f g ∧ by_top f g)).
  { unfold apart, spaced, key_le. intros f g. lia. }
  apply StronglySorted_and; [|apply isort_sorted].
  apply (StronglySorted_symmetric_perm apart blocks); [|by rewrite isort_perm|done].
  unfold apart. intros f g. lia.
Qed.

(** C4. N fragments whose [top] values are pairwise more than 5 apart give
    a Table of exactly N rows of one cell each: one row per fragment, in
    ascending order of [top], holding the fragment's trimmed text; when the
    [top] values increase along the input, the rows are in input order. *)
Theorem C4_row_count (blocks : list block) :
  Forall readable blocks →
  (∀ i j f g, blocks !! i = Some f → blocks !! j = Some g → i ≠ j →
     (5 < Z.abs (top_of f - top_of g))%Z) →
  ∃ table sorted_blocks,
    organize_into_table blocks = Ok table
    ∧ length table = length blocks
    ∧ Forall (fun record => length record = 1) table
    ∧ sorted (fun x => getitem x "top") blocks = Ok sorted_blocks
    ∧ table = map (fun b => [cell_of b]) sorted_blocks
    ∧ ((∀ i j f g, blocks !! i = Some f → blocks !! j = Some g → i < j →
          (top_of f < top_of g)%Z) →
       sorted_blocks = blocks).
Proof.
  intros Hb Hap.
  assert (StronglySorted apart blocks) as Hap'.
  { apply StronglySorted_of_lookup. intros i j f g Hi Hj Hlt.
    apply (Hap i j); [done..|lia]. }
  pose proof (isort_spaced blocks Hap') as Hsp.
  exists (map (fun b => [cell_of b]) (isort top_of blocks)), (isort top_of blocks).
  split; [|split; [|split; [|split; [|split]]]].
  - rewrite (organize_into_table_readable blocks Hb), (rows_of_spaced _ Hsp).
    by rewrite map_map.
  - by rewrite length_map, isort_length.
  - apply Forall_forall. intros record Hr.
    apply list_elem_of_fmap in Hr as (b & -> & _). done.
  - apply sorted_top_int.
    eapply Forall_impl; [exact Hb|]. apply readable_top.
  - done.
  - intros Hinc. apply isort_id.
    apply (StronglySorted_impl (fun f g => (top_of f < top_of g)%Z)).
    { unfold key_le. intros f g. lia. }
    by apply StronglySorted_of_lookup.
Qed.

Lemma C4_row_count_witness :
  ∃ table sorted_blocks,
    organize_into_table spaced_blocks = Ok table
    ∧ length table = length spaced_blocks
    ∧ Forall (fun record => length record = 1) table
    ∧ sorted (fun x => getitem x "top") spaced_blocks = Ok sorted_blocks
    ∧ table = map (fun b => [cell_of b]) sorted_blocks
    ∧ ((∀ i j f g, spaced_blocks !! i = Some f → spaced_blocks !! j = Some g →
          i < j → (top_of f < top_of g)%Z) →
       sorted_blocks = spaced_blocks).
Proof.
  apply (C4_row_count spaced_blocks).
  - unfold spaced_blocks. forall_true.
  - intros i j f g Hi Hj Hne.
    destruct i as [|[|[|i]]]; destruct j as [|[|[|j]]];
      simpl in Hi, Hj; try lia; try discriminate;
      inversion Hi; inversion Hj; subst; vm_compute; reflexivity.
Defined.

Lemma readable_cell f :
  readable f →
  ∃ s, f !! "text" = Some (VStr s) ∧ cell_of f = strip s
       ∧ trimmed_of s (cell_of f).
Proof.
  intros Hf. apply readable_text in Hf. unfold has_str, cell_of in *.
  destruct (f !! "text") as [[| s |]|]; try done.
  exists s. repeat split. apply strip_trimmed.
Qed.

(** C9. The three fragments A (left 0, top 0), B (left 50, top 0) and
    C (left 0, top 100) assemble to [[A, B], [C]], whatever their right and
    bottom edges; and in general the records of the Table are the rows of
    the Row Grouper in column order, each cell being the text of its
    fragment with the whitespace at both ends removed. *)
Theorem C9_table_cells (blocks : list block) :
  Forall readable blocks →
  (∀ r1 b1 r2 b2 r3 b3,
     organize_into_table
       [mk_block (str "A") 0 r1 0 b1; mk_block (str "B") 50 r2 0 b2;
        mk_block (str "C") 0 r3 100 b3]
     = Ok [[str "A"; str "B"]; [str "C"]]
     ∧ organize_into_table
       [mk_block (str " A") 0 r1 0 b1; mk_block (str "B  ") 50 r2 0 b2;
        mk_block (str "C") 0 r3 100 b3]
     = Ok [[str "A"; str "B"]; [str "C"]])
  ∧ ∃ rows table,
      group_text_into_rows blocks = Ok rows
      ∧ organize_into_table blocks = Ok table
      ∧ Forall2
          (fun record row =>
             ∃ sorted_row,
               sort_row_into_columns row = Ok sorted_row
               ∧ Forall2
                   (fun cell f =>
                      ∃ s, f !! "text" = Some (VStr s) ∧ cell = strip s
                           ∧ trimmed_of s cell)
                   record sorted_row)
          table rows.
Proof.
  intros Hb. split.
  { intros. split; vm_compute; reflexivity. }
  assert (Forall (has_int "top") blocks) as Htop
    by (eapply Forall_impl; [exact Hb|]; apply readable_top).
  exists (rows_of (isort top_of blocks)),
         (map record_of (rows_of (isort top_of blocks))).
  split; [by apply group_text_into_rows_rows_of|].
  split; [by apply organize_into_table_readable|].
  apply Forall2_fmap_l, Forall_Forall2_diag.
  assert (Forall (Forall readable) (rows_of (isort top_of blocks))) as Hrows
    by (apply rows_of_Forall; by rewrite isort_perm).
  eapply Forall_impl; [exact Hrows|]. intros row Hrow; simpl.
  exists (isort left_of row). split.
  - apply sort_row_into_columns_int.
    eapply Forall_impl; [exact Hrow|]. apply readable_left.
  - unfold record_of. apply Forall2_fmap_l, Forall_Forall2_diag.
    rewrite isort_perm.
    eapply Forall_impl; [exact Hrow|]. intros f Hf; simpl.
    by apply readable_cell.
Qed.

Lemma C9_table_cells_witness :
  (∀ r1 b1 r2 b2 r3 b3,
     organize_into_table
       [mk_block (str "A") 0 r1 0 b1; mk_block (str "B") 50 r2 0 b2;
        mk_block (str "C") 0 r3 100 b3]
     = Ok [[str "A"; str "B"]; [str "C"]]
     ∧ organize_into_table
       [mk_block (str " A") 0 r1 0 b1; mk_block (str "B  ") 50 r2 0 b2;
        mk_block (str "C") 0 r3 100 b3]
     = Ok [[str "A"; str "B"]; [str "C"]])
  ∧ ∃ rows table,
      group_text_into_rows ragged_row = Ok rows
      ∧ organize_into_table ragged_row = Ok table
      ∧ Forall2
          (fun record row =>
             ∃ sorted_row,
               sort_row_into_columns row = Ok sorted_row
               ∧ Forall2
                   (fun cell f =>
                      ∃ s, f !! "text" = Some (VStr s) ∧ cell = strip s
                           ∧ trimmed_of s cell)
                   record sorted_row)
          table rows.
Proof.
  apply (C9_table_cells ragged_row).
  unfold ragged_row. forall_true.
Defined.

(** ** Input order *)

Lemma Forall2_and_Forall {A B} (R : A → B → Prop) (P : A → Prop) (Q : B → Prop) l k :
  Forall2 R l k → Forall P l → Forall Q k →
  Forall2 (fun a b => R a b ∧ P a ∧ Q b) l k.
Proof.
  induction 1 as [|a b l k Hab _ IH]; intros Hl Hk; [constructor|].
  apply Forall_cons in Hl as [Ha Hl]. apply Forall_cons in Hk as [Hb Hk].
  constructor; auto.
Qed.

(** Two rows with the same blocks, each in ascending order of [top], give
    the same record when [top] and [left] together determine the cell. *)
Lemma record_of_perm (r1 r2 : list block) :
  (∀ f g, f ∈ r1 → g ∈ r1 → top_of f = top_of g → left_of f = left_of g →
     cell_of f = cell_of g) →
  StronglySorted by_top r1 → StronglySorted by_top r2 → r1 ≡ₚ r2 →
  record_of r1 = record_of r2.
Proof.
  intros Htie H1 H2 E. unfold record_of.
  apply (lex_sorted_map_eq left_of top_of).
  - intros f g Hf Hg El Et. rewrite isort_perm in Hf, Hg. by apply Htie.
  - by apply isort_lex.
  - by apply isort_lex.
  - by rewrite !isort_perm.
Qed.

(** C3, as stated, fails: two fragments with the same [top] and the same
    [left] come out in input order, so swapping them in the input swaps
    their cells. *)
Lemma C3_counterexample :
  [twin_b; twin_a] ≡ₚ [twin_a; twin_b]
  ∧ organize_into_table [twin_a; twin_b] = Ok [[str "A"; str "B"]]
  ∧ organize_into_table [twin_b; twin_a] = Ok [[str "B"; str "A"]]
  ∧ organize_into_table [twin_b; twin_a] ≠ organize_into_table [twin_a; twin_b].
Proof.
  split; [apply Permutation_swap|].
  split; [vm_compute; reflexivity|].
  split; [vm_compute; reflexivity|].
  vm_compute. discriminate.
Qed.

(** C3, amended. When fragments that share both [top] and [left] also
    share their trimmed text, the Table Assembler returns the same Table
    for every permutation of the input. *)
Theorem C3_permutation_invariance (blocks blocks' : list block) :
  Forall readable blocks →
  blocks' ≡ₚ blocks →
  (∀ f g, f ∈ blocks → g ∈ blocks →
     top_of f = top_of g → left_of f = left_of g → cell_of f = cell_of g) →
  ∃ table,
    organize_into_table blocks = Ok table
    ∧ organize_into_table blocks' = Ok table.
Proof.
  intros Hb E Htie.
  assert (Forall readable blocks') as Hb' by (by rewrite E).
  exists (map record_of (rows_of (isort top_of blocks))).
  split; [by apply organize_into_table_readable|].
  rewrite (organize_into_table_readable blocks' Hb'). f_equal.
  set (s := isort top_of blocks). set (s' := isort top_of blocks').
  assert (s ≡ₚ s') as Es by (unfold s, s'; by rewrite !isort_perm, E).
  pose proof (isort_sorted top_of blocks) as Hs.
  pose proof (isort_sorted top_of blocks') as Hs'.
  fold s in Hs. fold s' in Hs'.
  pose proof (rows_of_perm (length s) s s' (le_n _) Hs Hs' Es) as Hrows.
  apply (Forall2_and_Forall _ (StronglySorted by_top) (StronglySorted by_top))
    in Hrows; [|by apply rows_of_sorted..].
  assert (∀ row f, row ∈ rows_of s → f ∈ row → f ∈ blocks) as Hin.
  { intros row f Hrow Hf. rewrite <- (isort_perm top_of blocks).
    by apply (rows_of_elem _ row). }
  symmetry. apply list_eq_Forall2, Forall2_fmap.
  revert Hin. generalize (rows_of s) (rows_of s') Hrows. clear -Htie.
  induction 1 as [|r1 r2 rows rows' (E & H1 & H2) _ IH]; intros Hin;
    constructor.
  - apply record_of_perm; [|done..].
    intros f g Hf Hg. apply Htie; apply (Hin r1); done || by left.
  - apply IH. intros row f Hrow. apply Hin. by right.
Qed.

Lemma C3_permutation_invariance_witness :
  ∃ table,
    organize_into_table drift_blocks = Ok table
    ∧ organize_into_table
        [frag "b" 20 3; frag "a" 0 0; frag "c" 40 4; frag "d" 60 9]
      = Ok table.
Proof.
  apply (C3_permutation_invariance drift_blocks).
  - unfold drift_blocks. forall_true.
  - apply Permutation_swap.
  - intros f g Hf Hg Ht _. unfold drift_blocks in Hf, Hg.
    repeat (apply elem_of_cons in Hf as [->|Hf]);
      repeat (apply elem_of_cons in Hg as [->|Hg]);
      try (by apply elem_of_nil in Hf); try (by apply elem_of_nil in Hg);
      try reflexivity; vm_compute in Ht; discriminate.
Defined.

(** ** Malformed fragments *)

Lemma mapM_Err {A B} (f : A → result B) e xs :
  (∀ x e', f x = Err e' → e' = e) →
  Exists (fun x => f x = Err e) xs → mapM f xs = Err e.
Proof.
  intros Honly. induction 1 as [x xs Hx|x xs _ IH]; cbn [mapM].
  - by rewrite Hx.
  - destruct (f x) as [y|e'] eqn:Hx; cbn [bind].
    + by rewrite IH.
    + by rewrite (Honly _ _ Hx).
Qed.

Lemma sorted_missing_key (k : string) (blocks : list block) :
  Exists (fun b => b !! k = None) blocks →
  sorted (fun x => getitem x k) blocks = Err (KeyError k).
Proof.
  intros Hex. unfold sorted.
  rewrite (mapM_Err _ (KeyError k)); [done| |].
  - intros b e'. unfold getitem. destruct (b !! k); cbn [bind]; congruence.
  - eapply Exists_impl; [exact Hex|]. intros b Hb; simpl.
    unfold getitem. by rewrite Hb.
Qed.

(** Whenever the Table Assembler returns, it has read a [top], a [left]
    and a [str] text of every block, and made one cell of each. *)
Lemma organize_into_table_Ok blocks table :
  organize_into_table blocks = Ok table →
  length (concat table) = length blocks
  ∧ Forall (fun b => is_Some (b !! "top") ∧ cells_read b) blocks.
Proof.
  unfold organize_into_table. intros H.
  apply bind_Ok in H as (rows & Hrows & H).
  apply group_text_into_rows_Ok in Hrows as [Hperm Htop].
  apply foldM_organize_step_Ok in H as [Hlen Hread].
  split; [by rewrite Hlen, Hperm|].
  rewrite Forall_forall in Htop |- *. intros b Hb. split; [by apply Htop|].
  rewrite <- Hperm in Hb. apply elem_of_concat in Hb as (row & Hrow & Hb).
  rewrite Forall_forall in Hread. specialize (Hread row Hrow).
  rewrite Forall_forall in Hread. by apply Hread.
Qed.

(** ** Keys that are not integers *)

Lemma py_lt_Ok a b c :
  py_lt a b = Ok c →
  (∃ x y, a = VInt x ∧ b = VInt y) ∨ (∃ s t, a = VStr s ∧ b = VStr t).
Proof. destruct a, b; simpl; intros H; try discriminate; eauto. Qed.

(** A successful sort of two or more pairs has compared keys of one kind:
    all [int] or all [str]. *)
Lemma sort_keyed_kinds {A} (l r : list (value * A)) :
  sort_keyed l = Ok r →
  length l ≤ 1
  ∨ Forall (fun kx => ∃ z, kx.1 = VInt z) l
  ∨ Forall (fun kx => ∃ s, kx.1 = VStr s) l.
Proof.
  revert r; induction l as [|kx l IH]; intros r H; [left; simpl; lia|].
  cbn [sort_keyed] in H. apply bind_Ok in H as (s & Hs & H).
  pose proof (sort_keyed_perm _ _ Hs) as Hperm.
  destruct s as [|ky s'].
  { apply Permutation_nil in Hperm. subst. left. simpl. lia. }
  cbn [insert_keyed] in H. apply bind_Ok in H as (c & Hc & _).
  assert (ky ∈ l) as Hky by (rewrite <- Hperm; left).
  right. apply py_lt_Ok in Hc.
  destruct (IH _ Hs) as [Hlen|[Hint|Hstr]].
  - destruct l as [|z [|z' l]]; [by apply elem_of_nil in Hky| |simpl in Hlen; lia].
    apply list_elem_of_singleton in Hky as <-.
    destruct Hc as [(x & y & E1 & E2)|(u & t & E1 & E2)];
      [left|right]; repeat constructor; eauto.
  - left. constructor; [|done].
    rewrite Forall_forall in Hint. destruct (Hint ky Hky) as [z Hz].
    destruct Hc as [(x & y & E1 & E2)|(u & t & E1 & E2)]; [eauto|congruence].
  - right. constructor; [|done].
    rewrite Forall_forall in Hstr. destruct (Hstr ky Hky) as [u Hu].
    destruct Hc as [(x & y & E1 & E2)|(u' & t & E1 & E2)]; [congruence|eauto].
Qed.

Lemma sorted_kinds {A} (key : A → result value) xs ys :
  sorted key xs = Ok ys →
  length xs ≤ 1
  ∨ Forall (fun x => ∃ z, key x = Ok (VInt z)) xs
  ∨ Forall (fun x => ∃ s, key x = Ok (VStr s)) xs.
Proof.
  unfold sorted. intros H.
  apply bind_Ok in H as (kxs & Hk & H). apply bind_Ok in H as (s & Hs & _).
  apply mapM_Ok_Forall2 in Hk.
  pose proof (Forall2_length _ _ _ Hk) as Hlen.
  destruct (sort_keyed_kinds _ _ Hs) as [Hle|[Hint|Hstr]].
  - left. lia.
  - right; left. eapply Forall2_Forall_l; [exact Hk|].
    eapply Forall_impl; [exact Hint|]. intros kx [z Hz] x Hx.
    apply bind_Ok in Hx as (v & Hv & Hx). inversion Hx; subst. simpl in Hz.
    subst. eauto.
  - right; right. eapply Forall2_Forall_l; [exact Hk|].
    eapply Forall_impl; [exact Hstr|]. intros kx [u Hu] x Hx.
    apply bind_Ok in Hx as (v & Hv & Hx). inversion Hx; subst. simpl in Hu.
    subst. eauto.
Qed.

(** Whenever the Row Grouper returns rows for two or more blocks, every
    [top] was an integer: string tops pass [sorted] but not [-]. *)
Lemma group_text_into_rows_Ok_int blocks rows :
  group_text_into_rows blocks = Ok rows → 2 ≤ length blocks →
  Forall (has_int "top") blocks.
Proof.
  destruct blocks as [|b0 blocks']; [simpl; lia|].
  set (blocks := b0 :: blocks'). unfold group_text_into_rows. fold blocks.
  intros H Hlen. apply bind_Ok in H as (s & Hs & H).
  pose proof (sorted_Ok _ _ _ Hs) as [Hperm _].
  destruct (sorted_kinds _ _ _ Hs) as [Hle|[Hint|Hstr]]; [lia| |].
  - eapply Forall_impl; [exact Hint|]. intros b [z Hz].
    unfold getitem in Hz. unfold has_int.
    destruct (b !! "top") as [v|]; [|discriminate]. by inversion Hz.
  - exfalso. rewrite <- Hperm in Hstr, Hlen.
    destruct s as [|first [|second rest]]; [done|simpl in Hlen; lia|].
    apply Forall_cons in Hstr as [[y Hy] Hstr].
    apply Forall_cons in Hstr as [[t Ht] _].
    rewrite Hy in H. cbn [bind foldM] in H.
    unfold group_step at 1 in H. rewrite Ht in H. discriminate.
Qed.

(** C7, as stated, fails: the core assembles inputs with a malformed
    fragment without raising.  A missing [bottom] is never noticed, alone or
    beside well-formed fragments; a lone fragment with a string [top] goes
    through; string [left]s in one row are ordered as strings. *)
Lemma C7_counterexample :
  malformed no_bottom = true
  ∧ organize_into_table [no_bottom] = Ok [[str "A"]]
  ∧ organize_into_table [frag "B" 50 0; no_bottom; frag "C" 0 100]
    = Ok [[str "A"; str "B"]; [str "C"]]
  ∧ malformed str_top = true
  ∧ organize_into_table [str_top] = Ok [[str "A"]]
  ∧ malformed (str_left "x" "9") = true
  ∧ organize_into_table [str_left "x" "9"; str_left "y" "10"]
    = Ok [[str "y"; str "x"]].
Proof. repeat split; vm_compute; reflexivity. Qed.

(** C7, amended. The core has no validation step and no [InvalidFragment]
    condition; it reads [top], [left] and [text] and nothing else.  An input
    with a fragment that has no [top] raises [KeyError] in the Row Grouper;
    an input of two or more fragments with a [top] that is not an integer
    makes the Row Grouper raise; an input with a fragment that has no [left]
    makes the Table Assembler raise; an input whose fragments have an
    integer [top], an integer [left] and a [str] text is assembled whatever
    its [right] and [bottom] are; and no fragment is dropped: a returned
    Table has one cell per input fragment. *)
Theorem C7_unvalidated_fragments (blocks : list block) :
  (Exists (fun b => b !! "top" = None) blocks →
     group_text_into_rows blocks = Err (KeyError "top")
     ∧ organize_into_table blocks = Err (KeyError "top"))
  ∧ (2 ≤ length blocks → Exists (fun b => has_int "top" b = false) blocks →
     ∃ e, group_text_into_rows blocks = Err e
          ∧ organize_into_table blocks = Err e)
  ∧ (Exists (fun b => b !! "left" = None) blocks →
     ∃ e, organize_into_table blocks = Err e)
  ∧ (Forall readable blocks → ∃ table, organize_into_table blocks = Ok table)
  ∧ (∀ table, organize_into_table blocks = Ok table →
     length (concat table) = length blocks).
Proof.
  split; [|split; [|split; [|split]]].
  - intros Hex.
    assert (group_text_into_rows blocks = Err (KeyError "top")) as Hg.
    { destruct blocks as [|b0 blocks']; [by apply Exists_nil in Hex|].
      unfold group_text_into_rows. by rewrite sorted_missing_key. }
    split; [done|]. unfold organize_into_table. by rewrite Hg.
  - intros Hlen Hex. unfold organize_into_table.
    destruct (group_text_into_rows blocks) as [rows|e] eqn:H;
      [|by exists e].
    apply group_text_into_rows_Ok_int in H; [|done].
    apply Exists_exists in Hex as (b & Hb & Hnot).
    rewrite Forall_forall in H. specialize (H b Hb). by rewrite Hnot in H.
  - intros Hex. destruct (organize_into_table blocks) as [table|e] eqn:H;
      [|by exists e].
    apply organize_into_table_Ok in H as [_ Hread].
    apply Exists_exists in Hex as (b & Hb & Hleft).
    rewrite Forall_forall in Hread.
    destruct (Hread b Hb) as (_ & [v Hv] & _). congruence.
  - intros Hb. eexists. by apply organize_into_table_readable.
  - intros table H. by apply organize_into_table_Ok in H as [Hlen _].
Qed.

Lemma C7_unvalidated_fragments_witness :
  (group_text_into_rows [frag "B" 50 0; no_top] = Err (KeyError "top")
   ∧ organize_into_table [frag "B" 50 0; no_top] = Err (KeyError "top"))
  ∧ (∃ e, group_text_into_rows [frag "B" 50 0; str_top] = Err e
          ∧ organize_into_table [frag "B" 50 0; str_top] = Err e)
  ∧ (∃ e, organize_into_table [frag "B" 50 0; no_left] = Err e)
  ∧ (∃ table, organize_into_table [frag "B" 50 0; no_bottom] = Ok table)
  ∧ length (concat [[str "A"; str "B"]])
    = length [frag "B" 50 0; no_bottom].
Proof.
  split; [|split; [|split; [|split]]].
  - apply (proj1 (C7_unvalidated_fragments [frag "B" 50 0; no_top])).
    apply Exists_cons_tl, Exists_cons_hd. vm_compute. reflexivity.
  - apply (proj1 (proj2 (C7_unvalidated_fragments [frag "B" 50 0; str_top]))).
    + simpl. lia.
    + apply Exists_cons_tl, Exists_cons_hd. vm_compute. reflexivity.
  - apply (proj1 (proj2 (proj2
      (C7_unvalidated_fragments [frag "B" 50 0; no_left])))).
    apply Exists_cons_tl, Exists_cons_hd. vm_compute. reflexivity.
  - apply (proj1 (proj2 (proj2 (proj2
      (C7_unvalidated_fragments [frag "B" 50 0; no_bottom]))))).
    forall_true.
  - apply (proj2 (proj2 (proj2 (proj2
      (C7_unvalidated_fragments [frag "B" 50 0; no_bottom]))))).
    vm_compute. reflexivity.
Defined.

(** ** More on the Row Grouper *)

Lemma StronglySorted_head_le (row : list block) f :
  StronglySorted by_top row → f ∈ row → (anchor_of row ≤ top_of f)%Z.
Proof.
  intros Hs Hf. destruct row as [|a row]; [by apply elem_of_nil in Hf|].
  simpl. apply elem_of_cons in Hf as [->|Hf]; [lia|].
  apply StronglySorted_cons in Hs as [Ha _].
  rewrite Forall_forall in Ha. by apply Ha.
Qed.

(** X1. A row is at most 5 high: its first fragment is its topmost one,
    and any two fragments of one row differ in [top] by at most 5. *)
Theorem X1_row_height (blocks : list block) :
  Forall (has_int "top") blocks →
  ∃ rows,
    group_text_into_rows blocks = Ok rows
    ∧ ∀ row f g, row ∈ rows → f ∈ row → g ∈ row →
        (anchor_of row ≤ top_of f ≤ anchor_of row + 5)%Z
        ∧ (Z.abs (top_of f - top_of g) ≤ 5)%Z.
Proof.
  intros Hb. exists (rows_of (isort top_of blocks)).
  split; [by apply group_text_into_rows_rows_of|].
  pose proof (rows_of_within (isort top_of blocks)) as Hw.
  pose proof (rows_of_sorted _ (isort_sorted top_of blocks)) as Hs.
  rewrite Forall_forall in Hw, Hs.
  assert (∀ row f, row ∈ rows_of (isort top_of blocks) → f ∈ row →
            (anchor_of row ≤ top_of f ≤ anchor_of row + 5)%Z) as Hin.
  { intros row f Hrow Hf.
    pose proof (StronglySorted_head_le row f (Hs row Hrow) Hf).
    specialize (Hw row Hrow). rewrite Forall_forall in Hw.
    specialize (Hw f Hf). unfold within5 in Hw. lia. }
  intros row f g Hrow Hf Hg.
  pose proof (Hin row f Hrow Hf). pose proof (Hin row g Hrow Hg). lia.
Qed.

Lemma X1_row_height_witness :
  ∃ rows,
    group_text_into_rows drift_blocks = Ok rows
    ∧ ∀ row f g, row ∈ rows → f ∈ row → g ∈ row →
        (anchor_of row ≤ top_of f ≤ anchor_of row + 5)%Z
        ∧ (Z.abs (top_of f - top_of g) ≤ 5)%Z.
Proof.
  apply (X1_row_height drift_blocks). unfold drift_blocks. forall_true.
Defined.

(** X2. Fragments with the same [top] are never split: they are in the
    same row. *)
Theorem X2_equal_top_same_row (blocks : list block) :
  Forall (has_int "top") blocks →
  ∃ rows,
    group_text_into_rows blocks = Ok rows
    ∧ ∀ i j r1 r2 f g,
        rows !! i = Some r1 → rows !! j = Some r2 → f ∈ r1 → g ∈ r2 →
        top_of f = top_of g → i = j.
Proof.
  intros Hb.
  destruct (group_text_into_rows_facts blocks Hb)
    as (rows & Hrows & _ & _ & Hw & Hs).
  exists rows. split; [done|].
  intros i j r1 r2 f g Hi Hj Hf Hg Heq.
  destruct (Nat.lt_total i j) as [Hlt|[->|Hlt]]; [|done|].
  - destruct (rows_later_below rows i j r1 r2 f g Hw Hs Hi Hj Hlt Hf Hg). lia.
  - destruct (rows_later_below rows j i r2 r1 g f Hw Hs Hj Hi Hlt Hg Hf). lia.
Qed.

Lemma X2_equal_top_same_row_witness :
  ∃ rows,
    group_text_into_rows ragged_row = Ok rows
    ∧ ∀ i j r1 r2 f g,
        rows !! i = Some r1 → rows !! j = Some r2 → f ∈ r1 → g ∈ r2 →
        top_of f = top_of g → i = j.
Proof.
  apply (X2_equal_top_same_row ragged_row). unfold ragged_row. forall_true.
Defined.

(** X3. The first row holds exactly the blocks whose [top] is at most 5
    more than the least [top] of the input. *)
Theorem X3_first_row (blocks : list block) :
  blocks ≠ [] → Forall (has_int "top") blocks →
  ∃ row0 rest least,
    group_text_into_rows blocks = Ok (row0 :: rest)
    ∧ least ∈ blocks
    ∧ (∀ g, g ∈ blocks → (top_of least ≤ top_of g)%Z)
    ∧ (∀ f, f ∈ row0 ↔ f ∈ blocks ∧ (top_of f ≤ top_of least + 5)%Z).
Proof.
  intros Hne Hb.
  pose proof (group_text_into_rows_rows_of blocks Hb) as Hrows.
  pose proof (isort_perm top_of blocks) as Hperm.
  pose proof (isort_sorted top_of blocks) as Hs.
  destruct (isort top_of blocks) as [|first s].
  { apply Permutation_nil in Hperm. by subst. }
  rewrite (rows_of_filter first s Hs) in Hrows.
  eexists _, _, first. split; [exact Hrows|].
  split; [rewrite <- Hperm; left|]. split.
  - intros g Hg. rewrite <- Hperm in Hg.
    apply elem_of_cons in Hg as [->|Hg]; [lia|].
    apply StronglySorted_cons in Hs as [Hf _].
    rewrite Forall_forall in Hf. by apply Hf.
  - intros f. rewrite list_elem_of_filter, Hperm. unfold low. tauto.
Qed.

Lemma X3_first_row_witness :
  ∃ row0 rest least,
    group_text_into_rows drift_blocks = Ok (row0 :: rest)
    ∧ least ∈ drift_blocks
    ∧ (∀ g, g ∈ drift_blocks → (top_of least ≤ top_of g)%Z)
    ∧ (∀ f, f ∈ row0 ↔ f ∈ drift_blocks ∧ (top_of f ≤ top_of least + 5)%Z).
Proof.
  apply (X3_first_row drift_blocks); [discriminate|].
  unfold drift_blocks. forall_true.
Defined.

Lemma spec_rows_one_row rest : ∀ a cur,
  Forall (within5 a) rest → spec_rows a cur rest = [cur ++ rest].
Proof.
  induction rest as [|f rest IH]; intros a cur Hrest; simpl.
  - by rewrite app_nil_r.
  - apply Forall_cons in Hrest as [Hf Hrest]. unfold within5 in Hf.
    destruct (Z.leb_spec (Z.abs (top_of f - a)) 5); [|lia].
    by rewrite IH, <- app_assoc.
Qed.

(** X4. Grouping again changes nothing: the rows laid end to end regroup
    into the same rows, and each row on its own regroups into that one
    row. *)
Theorem X4_regrouping (blocks : list block) :
  Forall (has_int "top") blocks →
  ∃ rows,
    group_text_into_rows blocks = Ok rows
    ∧ group_text_into_rows (concat rows) = Ok rows
    ∧ ∀ row, row ∈ rows → group_text_into_rows row = Ok [row].
Proof.
  intros Hb. set (s := isort top_of blocks).
  assert (Forall (has_int "top") s) as Hs_int by (unfold s; by rewrite isort_perm).
  pose proof (isort_sorted top_of blocks) as Hs. fold s in Hs.
  exists (rows_of s). split; [by apply group_text_into_rows_rows_of|]. split.
  - rewrite rows_of_concat, group_text_into_rows_rows_of by done.
    by rewrite isort_id.
  - intros row Hrow.
    pose proof (rows_of_Forall _ _ Hs_int) as Hrows_int.
    pose proof (rows_of_sorted _ Hs) as Hrows_s.
    pose proof (rows_of_within s) as Hrows_w.
    pose proof (rows_of_nonempty s) as Hrows_ne.
    rewrite Forall_forall in Hrows_int, Hrows_s, Hrows_w, Hrows_ne.
    rewrite group_text_into_rows_rows_of by auto.
    rewrite isort_id by auto.
    specialize (Hrows_w row Hrow). specialize (Hrows_ne row Hrow).
    destruct row as [|a row]; [done|]. simpl in *.
    apply Forall_cons in Hrows_w as [_ Hw].
    by rewrite spec_rows_one_row.
Qed.

Lemma X4_regrouping_witness :
  ∃ rows,
    group_text_into_rows drift_blocks = Ok rows
    ∧ group_text_into_rows (concat rows) = Ok rows
    ∧ ∀ row, row ∈ rows → group_text_into_rows row = Ok [row].
Proof.
  apply (X4_regrouping drift_blocks). unfold drift_blocks. forall_true.
Defined.

(** X5. Which fragments share a row does not depend on the input order:
    for a permuted input the Row Grouper returns as many rows, and each
    row holds the same fragments up to their order. *)
Theorem X5_rows_up_to_order (blocks blocks' : list block) :
  Forall (has_int "top") blocks → blocks' ≡ₚ blocks →
  ∃ rows rows',
    group_text_into_rows blocks = Ok rows
    ∧ group_text_into_rows blocks' = Ok rows'
    ∧ length rows' = length rows
    ∧ Forall2 (fun row row' => row' ≡ₚ row) rows rows'.
Proof.
  intros Hb E.
  assert (Forall (has_int "top") blocks') as Hb' by (by rewrite E).
  exists (rows_of (isort top_of blocks)), (rows_of (isort top_of blocks')).
  split; [by apply group_text_into_rows_rows_of|].
  split; [by apply group_text_into_rows_rows_of|].
  assert (Forall2 (≡ₚ) (rows_of (isort top_of blocks))
                  (rows_of (isort top_of blocks'))) as H.
  { apply (rows_of_perm (length (isort top_of blocks))); [done|..].
    - apply isort_sorted.
    - apply isort_sorted.
    - by rewrite !isort_perm, E. }
  split; [symmetry; by eapply Forall2_length|].
  eapply Forall2_impl; [exact H|]. by intros row row' ->.
Qed.

Lemma X5_rows_up_to_order_witness :
  ∃ rows rows',
    group_text_into_rows ragged_row = Ok rows
    ∧ group_text_into_rows
        [frag "y" 0 2; frag "x" 50 0; frag "z" 50 1; frag "w" 0 0]
      = Ok rows'
    ∧ length rows' = length rows
    ∧ Forall2 (fun row row' => row' ≡ₚ row) rows rows'.
Proof.
  apply (X5_rows_up_to_order ragged_row).
  - unfold ragged_row. forall_true.
  - apply Permutation_swap.
Defined.

(** ** More on the Column Orderer and the Table Assembler *)

(** X6. Ordering the columns twice is ordering them once, and a row already
    in ascending order of [left] comes back unchanged. *)
Theorem X6_column_orderer_idempotent (row : list block) :
  Forall (has_int "left") row →
  ∃ out,
    sort_row_into_columns row = Ok out
    ∧ sort_row_into_columns out = Ok out
    ∧ ((∀ i j f g, row !! i = Some f → row !! j = Some g → i < j →
          (left_of f ≤ left_of g)%Z) → out = row).
Proof.
  intros Hrow. exists (isort left_of row).
  split; [by apply sort_row_into_columns_int|]. split.
  - rewrite sort_row_into_columns_int by (by rewrite isort_perm).
    f_equal. apply isort_id, isort_sorted.
  - intros Hasc. apply isort_id.
    by apply (StronglySorted_of_lookup (key_le left_of)).
Qed.

Lemma X6_column_orderer_idempotent_witness :
  ∃ out,
    sort_row_into_columns ragged_row = Ok out
    ∧ sort_row_into_columns out = Ok out
    ∧ ((∀ i j f g, ragged_row !! i = Some f → ragged_row !! j = Some g →
          i < j → (left_of f ≤ left_of g)%Z) → out = ragged_row).
Proof.
  apply (X6_column_orderer_idempotent ragged_row).
  unfold ragged_row. forall_true.
Defined.

(** X7. In every row as the Row Grouper returns it, the Column Orderer
    puts fragments of equal [left] in ascending order of [top]: a record
    reads left to right and, at one [left], top to bottom. *)
Theorem X7_columns_then_tops (blocks : list block) :
  Forall (has_int "top") blocks → Forall (has_int "left") blocks →
  ∃ rows,
    group_text_into_rows blocks = Ok rows
    ∧ ∀ row, row ∈ rows →
        ∃ out,
          sort_row_into_columns row = Ok out
          ∧ ∀ i j f g, out !! i = Some f → out !! j = Some g → i < j →
              (left_of f < left_of g
               ∨ (left_of f = left_of g ∧ top_of f ≤ top_of g))%Z.
Proof.
  intros Htop Hleft. exists (rows_of (isort top_of blocks)).
  split; [by apply group_text_into_rows_rows_of|].
  intros row Hrow. exists (isort left_of row). split.
  - apply sort_row_into_columns_int.
    assert (Forall (has_int "left") (isort top_of blocks)) as H
      by (by rewrite isort_perm).
    apply rows_of_Forall in H. rewrite Forall_forall in H. by apply H.
  - intros i j f g Hi Hj Hlt.
    pose proof (rows_of_sorted _ (isort_sorted top_of blocks)) as Hs.
    rewrite Forall_forall in Hs.
    apply (StronglySorted_lookup_lt (lex_le left_of top_of) _ i j f g
             (isort_lex left_of top_of row (Hs row Hrow)) Hi Hj Hlt).
Qed.

Lemma X7_columns_then_tops_witness :
  ∃ rows,
    group_text_into_rows ragged_row = Ok rows
    ∧ ∀ row, row ∈ rows →
        ∃ out,
          sort_row_into_columns row = Ok out
          ∧ ∀ i j f g, out !! i = Some f → out !! j = Some g → i < j →
              (left_of f < left_of g
               ∨ (left_of f = left_of g ∧ top_of f ≤ top_of g))%Z.
Proof.
  apply (X7_columns_then_tops ragged_row); unfold ragged_row; forall_true.
Defined.



(** The cells of a Table are the trimmed texts of the blocks, each once. *)
Lemma concat_record_of_perm (rows : list (list block)) :
  concat (map record_of rows) ≡ₚ map cell_of (concat rows).
Proof.
  induction rows as [|row rows IH]; simpl; [done|].
  rewrite map_app, IH. unfold record_of.
  apply Permutation_app_tail, fmap_Permutation, isort_perm.
Qed.

Lemma organize_into_table_cells blocks :
  Forall readable blocks →
  ∃ table,
    organize_into_table blocks = Ok table
    ∧ concat table ≡ₚ map cell_of blocks.
Proof.
  intros Hb. eexists. split; [by apply organize_into_table_readable|].
  rewrite concat_record_of_perm, rows_of_concat.
  apply fmap_Permutation, isort_perm.
Qed.

(** ** [strip] *)

Lemma lstrip_id (t : pystr) :
  (∀ c, head t = Some c → ¬ isspace c) → lstrip t = t.
Proof.
  destruct t as [|c t]; [done|]. simpl. intros H.
  specialize (H c eq_refl). by destruct (isspace c).
Qed.

Lemma lstrip_spaces (s : pystr) :
  Forall (fun c => isspace c) s → lstrip s = [].
Proof.
  induction 1 as [|c s Hc _ IH]; [done|]. simpl.
  by destruct (isspace c).
Qed.

(** X9. [strip] is idempotent, and it returns the empty string exactly on
    the strings made of whitespace only. *)
Theorem X9_strip_idempotent (s : pystr) :
  strip (strip s) = strip s
  ∧ (strip s = [] ↔ Forall (fun c => isspace c) s).
Proof.
  split.
  - destruct (strip_trimmed s) as (pre & suf & _ & _ & _ & Hhd & Hlast).
    unfold strip at 1. unfold rstrip.
    rewrite (lstrip_id (reverse (strip s)))
      by (intros c; rewrite head_reverse; apply Hlast).
    rewrite reverse_involutive. by apply lstrip_id.
  - split.
    + intros E. destruct (strip_trimmed s) as (pre & suf & Hs & Hpre & Hsuf & _).
      rewrite E in Hs. rewrite Hs. simpl. by apply Forall_app.
    + intros Hs. unfold strip, rstrip.
      rewrite (lstrip_spaces (reverse s)) by (by apply Forall_reverse).
      done.
Qed.

(** ** The extraction step *)

Lemma fold_left_min l : ∀ z,
  fold_left Z.min l z ∈ z :: l
  ∧ Forall (fun v => (fold_left Z.min l z ≤ v)%Z) (z :: l).
Proof.
  induction l as [|w l IH]; intros z; simpl.
  - split; [left | repeat constructor; lia].
  - destruct (IH (Z.min z w)) as [Hin Hle]. split.
    + apply elem_of_cons in Hin as [Hin|Hin]; [|by do 2 right].
      rewrite Hin. destruct (Z.min_spec z w) as [[_ ->]|[_ ->]];
        [left | right; left].
    + apply Forall_cons in Hle as [Hm Hle].
      constructor; [lia|]. constructor; [lia|done].
Qed.

Lemma fold_left_max l : ∀ z,
  fold_left Z.max l z ∈ z :: l
  ∧ Forall (fun v => (v ≤ fold_left Z.max l z)%Z) (z :: l).
Proof.
  induction l as [|w l IH]; intros z; simpl.
  - split; [left | repeat constructor; lia].
  - destruct (IH (Z.max z w)) as [Hin Hle]. split.
    + apply elem_of_cons in Hin as [Hin|Hin]; [|by do 2 right].
      rewrite Hin. destruct (Z.max_spec z w) as [[_ ->]|[_ ->]];
        [right; left | left].
    + apply Forall_cons in Hle as [Hm Hle].
      constructor; [lia|]. constructor; [lia|done].
Qed.

Lemma py_min_spec l :
  l ≠ [] → ∃ m, py_min l = Done m ∧ m ∈ l ∧ Forall (fun v => (m ≤ v)%Z) l.
Proof.
  destruct l as [|z l]; [done|]. intros _. eexists. split; [done|].
  apply fold_left_min.
Qed.

Lemma py_max_spec l :
  l ≠ [] → ∃ m, py_max l = Done m ∧ m ∈ l ∧ Forall (fun v => (v ≤ m)%Z) l.
Proof.
  destruct l as [|z l]; [done|]. intros _. eexists. split; [done|].
  apply fold_left_max.
Qed.

Lemma mk_block_reads text l r t b :
  well_formed (mk_block text l r t b) = true
  ∧ top_of (mk_block text l r t b) = t
  ∧ left_of (mk_block text l r t b) = l
  ∧ cell_of (mk_block text l r t b) = strip text.
Proof. repeat split; vm_compute; reflexivity. Qed.

(** One annotation: skipped, raising, or appended with its bounding box. *)
Lemma analyze_step_cases acc a :
  (kept a = false ∧ analyze_step acc a = Done acc)
  ∨ (boxless a = true ∧ analyze_step acc a = Raise ValueError)
  ∨ (kept a = true ∧ boxless a = false
     ∧ ∃ l r t b,
         analyze_step acc a = Done (acc ++ [mk_block (description a) l r t b])
         ∧ (∀ v, v ∈ vertices (bounding_poly a) →
              (l ≤ x v ≤ r ∧ t ≤ y v ≤ b)%Z)
         ∧ (∃ v, v ∈ vertices (bounding_poly a) ∧ x v = l)
         ∧ (∃ v, v ∈ vertices (bounding_poly a) ∧ x v = r)
         ∧ (∃ v, v ∈ vertices (bounding_poly a) ∧ y v = t)
         ∧ (∃ v, v ∈ vertices (bounding_poly a) ∧ y v = b)).
Proof.
  unfold analyze_step, kept, boxless.
  destruct (truthy (description a)); [|by left]. right.
  destruct (vertices (bounding_poly a)) as [|v0 vs] eqn:Hvs; [by left|].
  right. split; [done|]. split; [done|].
  set (xs := map x (v0 :: vs)). set (ys := map y (v0 :: vs)).
  destruct (py_min_spec xs) as (l & -> & Hl & Hl'); [done|].
  destruct (py_max_spec xs) as (r & -> & Hr & Hr'); [done|].
  destruct (py_min_spec ys) as (t & -> & Ht & Ht'); [done|].
  destruct (py_max_spec ys) as (b & -> & Hb & Hb'); [done|].
  exists l, r, t, b. split; [done|].
  unfold xs, ys in *. rewrite Forall_forall in Hl', Hr', Ht', Hb'.
  split.
  { intros v Hv.
    pose proof (Hl' (x v) (list_elem_of_fmap_2 x _ _ Hv)).
    pose proof (Hr' (x v) (list_elem_of_fmap_2 x _ _ Hv)).
    pose proof (Ht' (y v) (list_elem_of_fmap_2 y _ _ Hv)).
    pose proof (Hb' (y v) (list_elem_of_fmap_2 y _ _ Hv)). lia. }
  repeat split.
  - apply list_elem_of_fmap in Hl as (v & -> & Hv). eauto.
  - apply list_elem_of_fmap in Hr as (v & -> & Hv). eauto.
  - apply list_elem_of_fmap in Ht as (v & -> & Hv). eauto.
  - apply list_elem_of_fmap in Hb as (v & -> & Hv). eauto.
Qed.

(** The block of a kept annotation [a]: its description as it is, and the
    least box around its vertices. *)
Lemma foldR_analyze_step anns : ∀ acc,
  (Exists (fun a => boxless a) anns
   ∧ foldR analyze_step acc anns = Raise ValueError)
  ∨ (Forall (fun a => boxless a = false) anns
     ∧ ∃ blocks,
         foldR analyze_step acc anns = Done (acc ++ blocks)
         ∧ Forall2
             (fun a blk =>
                ∃ l r t b,
                  blk = mk_block (description a) l r t b
                  ∧ (∀ v, v ∈ vertices (bounding_poly a) →
                       (l ≤ x v ≤ r ∧ t ≤ y v ≤ b)%Z)
                  ∧ (∃ v, v ∈ vertices (bounding_poly a) ∧ x v = l)
                  ∧ (∃ v, v ∈ vertices (bounding_poly a) ∧ x v = r)
                  ∧ (∃ v, v ∈ vertices (bounding_poly a) ∧ y v = t)
                  ∧ (∃ v, v ∈ vertices (bounding_poly a) ∧ y v = b))
             (filter (fun a => kept a) anns) blocks).
Proof.
  induction anns as [|a anns IH]; intros acc; cbn [foldR].
  { right. split; [constructor|]. exists []. rewrite app_nil_r.
    split; [done|constructor]. }
  destruct (analyze_step_cases acc a)
    as [[Hskip ->]|[[Hbad ->]|(Hkept & Hbox & l & r & t & b & -> & Hin)]];
    cbn [run_bind].
  - assert (boxless a = false) as Hbox
      by (unfold boxless, kept in *; by rewrite Hskip).
    destruct (IH acc) as [[Hex ->]|(Hall & blocks & -> & HF)].
    + left. split; [by right|done].
    + right. split; [by constructor|]. exists blocks. split; [done|].
      rewrite filter_cons_False; [done|]. rewrite Hskip. intros [].
  - left. split; [left; by rewrite Hbad | done].
  - destruct (IH (acc ++ [mk_block (description a) l r t b]))
      as [[Hex ->]|(Hall & blocks & -> & HF)].
    + left. split; [by right|done].
    + right. split; [by constructor|].
      exists (mk_block (description a) l r t b :: blocks).
      split; [by rewrite <- app_assoc|].
      rewrite filter_cons_True by (by rewrite Hkept).
      constructor; [|done]. exists l, r, t, b. by split.
Qed.

(** X10. When every annotation with a non-empty description has a vertex,
    [analyze_table_structure] returns one block per such annotation, in
    order: its text is the description as it is (untrimmed, and kept even
    when it is whitespace only), and its box is the least one around the
    vertices, so [left <= right] and [top <= bottom].  Annotations with an
    empty description are skipped. *)
Theorem X10_extracted_blocks (text_data : response) :
  Forall (fun a => kept a → vertices (bounding_poly a) ≠ [])
         (text_annotations text_data) →
  ∃ blocks,
    analyze_table_structure text_data = Done blocks
    ∧ Forall (fun blk => well_formed blk) blocks
    ∧ Forall2
        (fun a blk =>
           ∃ left right top bottom,
             blk = mk_block (description a) left right top bottom
             ∧ (left ≤ right ∧ top ≤ bottom)%Z
             ∧ (∀ v, v ∈ vertices (bounding_poly a) →
                  (left ≤ x v ≤ right ∧ top ≤ y v ≤ bottom)%Z)
             ∧ (∃ v, v ∈ vertices (bounding_poly a) ∧ x v = left)
             ∧ (∃ v, v ∈ vertices (bounding_poly a) ∧ x v = right)
             ∧ (∃ v, v ∈ vertices (bounding_poly a) ∧ y v = top)
             ∧ (∃ v, v ∈ vertices (bounding_poly a) ∧ y v = bottom))
        (filter (fun a => kept a) (text_annotations text_data)) blocks.
Proof.
  intros Hbox. unfold analyze_table_structure.
  destruct (foldR_analyze_step (text_annotations text_data) [])
    as [[Hex _]|(_ & blocks & -> & HF)].
  { exfalso. apply Exists_exists in Hex as (a & Ha & Hbad).
    rewrite Forall_forall in Hbox. specialize (Hbox a Ha).
    unfold boxless, kept in *. apply andb_True in Hbad as [Hk Hv].
    specialize (Hbox Hk). by destruct (vertices (bounding_poly a)). }
  exists blocks. split; [done|]. split.
  - eapply Forall2_Forall_r; [exact HF|]. apply Forall_forall.
    intros a _ blk (l & r & t & b & -> & _). simpl.
    by rewrite (proj1 (mk_block_reads _ _ _ _ _)).
  - eapply Forall2_impl; [exact HF|]. simpl.
    intros a blk (l & r & t & b & -> & Hin & Hl & Hr & Ht & Hb).
    exists l, r, t, b. split; [done|]. split; [|tauto].
    destruct Hl as (v & Hv & _). pose proof (Hin v Hv). lia.
Qed.

Lemma X10_extracted_blocks_witness :
  ∃ blocks,
    analyze_table_structure (Response [word "a" 0 0; blank; spaces]) = Done blocks
    ∧ Forall (fun blk => well_formed blk) blocks
    ∧ Forall2
        (fun a blk =>
           ∃ left right top bottom,
             blk = mk_block (description a) left right top bottom
             ∧ (left ≤ right ∧ top ≤ bottom)%Z
             ∧ (∀ v, v ∈ vertices (bounding_poly a) →
                  (left ≤ x v ≤ right ∧ top ≤ y v ≤ bottom)%Z)
             ∧ (∃ v, v ∈ vertices (bounding_poly a) ∧ x v = left)
             ∧ (∃ v, v ∈ vertices (bounding_poly a) ∧ x v = right)
             ∧ (∃ v, v ∈ vertices (bounding_poly a) ∧ y v = top)
             ∧ (∃ v, v ∈ vertices (bounding_poly a) ∧ y v = bottom))
        (filter (fun a => kept a)
                (text_annotations (Response [word "a" 0 0; blank; spaces])))
        blocks.
Proof.
  apply (X10_extracted_blocks (Response [word "a" 0 0; blank; spaces])).
  simpl. repeat constructor; simpl; try discriminate. intros [].
Defined.

(** X11. [analyze_table_structure] raises exactly when some annotation
    with a non-empty description has no vertex, and then it is [ValueError]
    (the [min] of an empty list); an annotation with an empty description
    never raises, whatever its vertices. *)
Theorem X11_extraction_raises (text_data : response) :
  (analyze_table_structure text_data = Raise ValueError
   ↔ Exists (fun a => boxless a) (text_annotations text_data))
  ∧ ∀ e, analyze_table_structure text_data = Raise e → e = ValueError.
Proof.
  unfold analyze_table_structure.
  destruct (foldR_analyze_step (text_annotations text_data) [])
    as [[Hex ->]|(Hall & blocks & -> & _)].
  - split; [done|]. by intros e [= <-].
  - split; [|discriminate]. split; [discriminate|].
    intros Hex. apply Exists_exists in Hex as (a & Ha & Hbad).
    rewrite Forall_forall in Hall. specialize (Hall a Ha).
    by rewrite Hall in Hbad.
Qed.

(** ** The pipeline of [main] *)

Lemma foldR_app {S A} (step : S → A → run S) l1 : ∀ s l2,
  foldR step s (l1 ++ l2)
  = run_bind (foldR step s l1) (fun s' => foldR step s' l2).
Proof.
  induction l1 as [|a l1 IH]; intros s l2; cbn [foldR app]; [done|].
  destruct (step s a) as [s'|e]; cbn [run_bind]; [apply IH | done].
Qed.

Lemma analyze_step_acc acc a :
  analyze_step acc a
  = run_bind (analyze_step [] a) (fun r => Done (acc ++ r)).
Proof.
  unfold analyze_step. destruct (truthy (description a)); cbn [run_bind].
  - destruct (py_min (map x (vertices (bounding_poly a)))); [|done].
    destruct (py_max (map x (vertices (bounding_poly a)))); [|done].
    destruct (py_min (map y (vertices (bounding_poly a)))); [|done].
    destruct (py_max (map y (vertices (bounding_poly a)))); [|done].
    done.
  - by rewrite app_nil_r.
Qed.

(** Starting the extraction loop from [acc] appends to [acc] what it gives
    from the empty list. *)
Lemma foldR_analyze_acc anns : ∀ acc,
  foldR analyze_step acc anns
  = run_bind (foldR analyze_step [] anns) (fun r => Done (acc ++ r)).
Proof.
  induction anns as [|a anns IH]; intros acc; cbn [foldR run_bind].
  { by rewrite app_nil_r. }
  rewrite (analyze_step_acc acc a).
  destruct (analyze_step [] a) as [r|e]; cbn [run_bind]; [|done].
  rewrite (IH (acc ++ r)), (IH r).
  destruct (foldR analyze_step [] anns) as [r2|e]; cbn [run_bind]; [|done].
  by rewrite app_assoc.
Qed.

Lemma main_table_data_acc pages : ∀ acc,
  foldR (fun table_data page_data =>
           run_bind (analyze_table_structure page_data)
                    (fun structured_text => Done (table_data ++ structured_text)))
        acc pages
  = foldR analyze_step acc (concat (map text_annotations pages)).
Proof.
  induction pages as [|page pages IH]; intros acc; cbn [foldR map concat];
    [done|].
  rewrite foldR_app. unfold analyze_table_structure at 1.
  rewrite <- foldR_analyze_acc.
  destruct (foldR analyze_step acc (text_annotations page)) as [acc'|e];
    cbn [run_bind]; [apply IH | done].
Qed.

(** X12. Page boundaries leave no trace: the blocks [main] collects from
    the pages, and the exception it raises when it raises, are those of one
    page holding the annotations of all pages in order. *)
Theorem X12_pages_flattened (all_text_data : list response) :
  main_table_data all_text_data
  = analyze_table_structure
      (Response (concat (map text_annotations all_text_data)))
  ∧ main_organized_table all_text_data
    = main_organized_table
        [Response (concat (map text_annotations all_text_data))].
Proof.
  assert (∀ pages, main_table_data pages
                   = foldR analyze_step []
                       (concat (map text_annotations pages))) as H
    by (intros; apply main_table_data_acc).
  split; [apply H|].
  unfold main_organized_table. rewrite !H. simpl. by rewrite app_nil_r.
Qed.

Lemma extracted_blocks_readable (anns : list annotation) (blocks : list block) :
  Forall2 (fun a blk => ∃ l r t b, blk = mk_block (description a) l r t b
                                   ∧ (∀ v, v ∈ vertices (bounding_poly a) →
                                        (l ≤ x v ≤ r ∧ t ≤ y v ≤ b)%Z)
                                   ∧ (∃ v, v ∈ vertices (bounding_poly a) ∧ x v = l)
                                   ∧ (∃ v, v ∈ vertices (bounding_poly a) ∧ x v = r)
                                   ∧ (∃ v, v ∈ vertices (bounding_poly a) ∧ y v = t)
                                   ∧ (∃ v, v ∈ vertices (bounding_poly a) ∧ y v = b))
          anns blocks →
  Forall readable blocks
  ∧ map cell_of blocks = map (fun a => strip (description a)) anns.
Proof.
  induction 1 as [|a blk anns blocks (l & r & t & b & -> & _) _ [IH1 IH2]];
    [by split|].
  destruct (mk_block_reads (description a) l r t b) as (Hwf & _ & _ & Hcell).
  split.
  - constructor; [|done]. apply well_formed_readable. by rewrite Hwf.
  - simpl. by rewrite Hcell, IH2.
Qed.

(** X13. From extraction to table nothing is lost and nothing is rejected:
    when every annotation with a non-empty description has a vertex, [main]
    gets a table whose cells are the trimmed descriptions of those
    annotations of all pages, each once (an all-whitespace description
    gives an empty cell). *)
Theorem X13_pipeline_cells (all_text_data : list response) :
  Forall (fun page =>
            Forall (fun a => kept a → vertices (bounding_poly a) ≠ [])
                   (text_annotations page))
         all_text_data →
  ∃ table,
    main_organized_table all_text_data = Done table
    ∧ concat table
      ≡ₚ map (fun a => strip (description a))
             (filter (fun a => kept a)
                     (concat (map text_annotations all_text_data))).
Proof.
  intros Hbox. unfold main_organized_table, main_table_data.
  rewrite main_table_data_acc.
  destruct (foldR_analyze_step (concat (map text_annotations all_text_data)) [])
    as [[Hex _]|(_ & blocks & -> & HF)].
  { exfalso. apply Exists_exists in Hex as (a & Ha & Hbad).
    apply elem_of_concat in Ha as (anns & Hanns & Ha).
    apply list_elem_of_fmap in Hanns as (page & -> & Hpage).
    rewrite Forall_forall in Hbox. specialize (Hbox page Hpage).
    rewrite Forall_forall in Hbox. specialize (Hbox a Ha).
    unfold boxless, kept in *. apply andb_True in Hbad as [Hk Hv].
    specialize (Hbox Hk). by destruct (vertices (bounding_poly a)). }
  cbn [run_bind app].
  apply extracted_blocks_readable in HF as [Hread Hcells].
  destruct (organize_into_table_cells blocks Hread) as (table & -> & Hperm).
  exists table. split; [done|]. by rewrite Hperm, Hcells.
Qed.

Lemma X13_pipeline_cells_witness :
  ∃ table,
    main_organized_table
      [Response [word "a" 0 0; blank]; Response [spaces; word "b" 30 2]]
    = Done table
    ∧ concat table
      ≡ₚ map (fun a => strip (description a))
             (filter (fun a => kept a)
                     (concat (map text_annotations
                        [Response [word "a" 0 0; blank];
                         Response [spaces; word "b" 30 2]]))).
Proof.
  apply (X13_pipeline_cells
           [Response [word "a" 0 0; blank]; Response [spaces; word "b" 30 2]]).
  repeat constructor; simpl; try discriminate; intros [].
Defined.

(** X14. The core never rejects what the extraction step produced: the
    only exception between the OCR responses and the organized table is the
    [ValueError] of an annotation with a description and no vertex, and it
    is raised exactly when there is such an annotation on some page. *)
Theorem X14_pipeline_raises (all_text_data : list response) :
  (main_organized_table all_text_data = Raise ValueError
   ↔ Exists (fun a => boxless a)
            (concat (map text_annotations all_text_data)))
  ∧ ∀ e, main_organized_table all_text_data = Raise e → e = ValueError.
Proof.
  unfold main_organized_table, main_table_data.
  rewrite main_table_data_acc.
  destruct (foldR_analyze_step (concat (map text_annotations all_text_data)) [])
    as [[Hex ->]|(Hall & blocks & -> & HF)]; cbn [run_bind app].
  - split; [done|]. by intros e [= <-].
  - apply extracted_blocks_readable in HF as [Hread _].
    rewrite (organize_into_table_readable blocks Hread). cbn [lift].
    split; [|discriminate]. split; [discriminate|].
    intros Hex. apply Exists_exists in Hex as (a & Ha & Hbad).
    rewrite Forall_forall in Hall. specialize (Hall a Ha).
    by rewrite Hall in Hbad.
Qed.

(** ** The writer *)

Lemma write_row_values rn row : ∀ cn r c v,
  SetValue r c v ∈ write_row rn cn row
  ↔ r = rn ∧ ∃ j, c = cn + j ∧ row !! j = Some v.
Proof.
  induction row as [|d row IH]; intros cn r c v; simpl.
  - split; [by intros ?%elem_of_nil | by intros (_ & j & _ & ?)].
  - rewrite elem_of_cons, IH. split.
    + intros [[= -> -> ->]|(-> & j & -> & Hj)].
      * split; [done|]. exists 0. split; [lia|done].
      * split; [done|]. exists (S j). split; [lia|done].
    + intros (-> & [|j] & -> & Hj); simpl in Hj.
      * left. inversion Hj. f_equal. lia.
      * right. split; [done|]. exists j. split; [lia|done].
Qed.

Lemma write_row_no_bold rn row : ∀ cn r c, SetFontBold r c ∉ write_row rn cn row.
Proof.
  induction row as [|d row IH]; intros cn r c; simpl.
  - apply not_elem_of_nil.
  - apply not_elem_of_cons. split; [done|apply IH].
Qed.


Lemma write_headers_values hs : ∀ cn r c v,
  SetValue r c v ∈ write_headers cn hs
  ↔ r = 1 ∧ ∃ j, c = cn + j ∧ hs !! j = Some v.
Proof.
  induction hs as [|h hs IH]; intros cn r c v; simpl.
  - split; [by intros ?%elem_of_nil | by intros (_ & j & _ & ?)].
  - rewrite !elem_of_cons, IH. split.
    + intros [[= -> -> ->]|[?|(-> & j & -> & Hj)]]; [|done|].
      * split; [done|]. exists 0. split; [lia|done].
      * split; [done|]. exists (S j). split; [lia|done].
    + intros (-> & [|j] & -> & Hj); simpl in Hj.
      * left. inversion Hj. f_equal. lia.
      * right; right. split; [done|]. exists j. split; [lia|done].
Qed.

Lemma write_headers_bold hs : ∀ cn r c,
  SetFontBold r c ∈ write_headers cn hs
  ↔ r = 1 ∧ ∃ j, c = cn + j ∧ j < length hs.
Proof.
  induction hs as [|h hs IH]; intros cn r c; simpl.
  - split; [by intros ?%elem_of_nil | intros (_ & j & _ & ?); lia].
  - rewrite !elem_of_cons, IH. split.
    + intros [?|[[= -> ->]|(-> & j & -> & Hj)]]; [done| |].
      * split; [done|]. exists 0. split; lia.
      * split; [done|]. exists (S j). split; lia.
    + intros (-> & [|j] & -> & Hj).
      * right; left. f_equal. lia.
      * right; right. split; [done|]. exists j. split; lia.
Qed.


Lemma write_rows_values rows : ∀ rn r c v,
  SetValue r c v ∈ write_rows rn rows
  ↔ ∃ i j row, r = rn + i ∧ c = S j ∧ rows !! i = Some row ∧ row !! j = Some v.
Proof.
  induction rows as [|row rows IH]; intros rn r c v; simpl.
  - split; [by intros ?%elem_of_nil | by intros (i & j & row & _ & _ & ? & _)].
  - rewrite elem_of_app, write_row_values, IH. split.
    + intros [(-> & j & -> & Hj)|(i & j & row' & -> & -> & Hi & Hj)].
      * exists 0, j, row. repeat split; [lia|done..].
      * exists (S i), j, row'. repeat split; [lia|done..].
    + intros ([|i] & j & row' & -> & -> & Hi & Hj); simpl in Hi.
      * left. inversion Hi; subst. split; [lia|]. by exists j.
      * right. exists i, j, row'. repeat split; [lia|done..].
Qed.

Lemma write_rows_no_bold rows : ∀ rn r c, SetFontBold r c ∉ write_rows rn rows.
Proof.
  induction rows as [|row rows IH]; intros rn r c; simpl.
  - apply not_elem_of_nil.
  - rewrite elem_of_app. intros [H|H].
    + by apply write_row_no_bold in H.
    + by apply IH in H.
Qed.






(** X16. The bold cells are exactly the cells of the first row that get a
    value: every header cell is made bold and no other cell is. *)
Theorem X16_bold_header (table_data : list (list pystr)) (output_filename : pystr) :
  ∀ r c,
    SetFontBold r c ∈ write_table_to_excel table_data output_filename
    ↔ r = 1
      ∧ ∃ v, SetValue 1 c v ∈ write_table_to_excel table_data output_filename.
Proof.
  intros r c. unfold write_table_to_excel.
  rewrite elem_of_app, list_elem_of_singleton.
  destruct table_data as [|headers data].
  { split; [intros [?%elem_of_nil|?]; done|].
    intros (_ & v & [?%elem_of_nil|Hs]%elem_of_app); [done|].
    by apply list_elem_of_singleton in Hs. }
  rewrite elem_of_app, write_headers_bold. split.
  - intros [[(-> & j & -> & Hj)|H]|?]; [| by apply write_rows_no_bold in H |done].
    split; [done|]. apply lookup_lt_is_Some in Hj as [v Hv]. exists v.
    rewrite !elem_of_app, write_headers_values. left; left.
    split; [done|]. by exists j.
  - intros (-> & v & Hv). left; left. split; [done|].
    rewrite !elem_of_app, write_headers_values, write_rows_values in Hv.
    destruct Hv as [[(_ & j & -> & Hj)|(i & j & row & ? & _)]|Hv]; [|lia|].
    + exists j. split; [done|]. by eapply lookup_lt_Some.
    + by apply list_elem_of_singleton in Hv.
Qed.

